(** * opencode-voice: the session store, the upload endpoint and the
      wait loop of [main.ts], embedded in Rocq.

    The program keeps one process-wide [Map] from session identifiers to
    session objects.  Three pieces of code touch it: the protocol handler
    [handleMCPRequest] (sweep, create, then a polling loop that deletes
    the session when it returns), the upload branch of [handler] (which
    keeps a reference to the session object across its [await]s and
    writes to it), and [cleanupOldSessions].

    JavaScript objects are shared by reference, so the model has a heap
    of session objects and a map from identifiers to references.  What
    the runtime supplies (clock readings, the random identifier, the
    environment variables, the request body, the upstream's reply) is an
    explicit argument of the function that reads it. *)

From stdpp Require Import gmap strings pretty list functions.

Open Scope Z_scope.

(** ** Data model *)

(** [Session.status] of the source; ["recording"] is declared there but
    never assigned. *)
Inductive Status := Waiting | Recording | Processing | Completed | Error.

Global Instance Status_eq_dec : EqDecision Status.
Proof. solve_decision. Defined.

(** [interface Session].  The three optional fields are [None] when the
    property is [undefined]. *)
Record Session := mkSession {
  id : string;
  createdAt : Z;
  status : Status;
  audioData : option (list Byte.byte);
  result : option string;
  error : option string
}.

Definition set_status (st : Status) (s : Session) : Session :=
  mkSession (id s) (createdAt s) st (audioData s) (result s) (error s).
Definition set_audioData (a : list Byte.byte) (s : Session) : Session :=
  mkSession (id s) (createdAt s) (status s) (Some a) (result s) (error s).
Definition set_result (r : option string) (s : Session) : Session :=
  mkSession (id s) (createdAt s) (status s) (audioData s) r (error s).
Definition set_error (e : string) (s : Session) : Session :=
  mkSession (id s) (createdAt s) (status s) (audioData s) (result s) (Some e).

(** Identity of a session object. *)
Abbreviation ref := nat (only parsing).

(** The state of the process: the session objects allocated so far
    ([heap], with [next] the first unused reference) and
    [const sessions = new Map<string, Session>()], which holds
    references.  An object deleted from [sessions] stays in [heap]: an
    upload that obtained it earlier still writes to it. *)
Record World := mkWorld {
  heap : ref → Session;
  next : ref;
  sessions : gmap string ref
}.

Definition blank : Session := mkSession "" 0 Waiting None None None.

Definition emptyWorld : World := mkWorld (λ _, blank) 0%nat ∅.

(** [sessions.get(k)]: the object stored under [k], if any. *)
Definition get (k : string) (w : World) : option Session :=
  heap w <$> sessions w !! k.

(** Assignment to a property of the object behind a reference. *)
Definition update (r : ref) (f : Session → Session) (w : World) : World :=
  mkWorld (alter f r (heap w)) (next w) (sessions w).

(** [sessions.set(k, s)] with [s] a freshly built object. *)
Definition setNew (k : string) (s : Session) (w : World) : World :=
  mkWorld (<[next w := s]> (heap w)) (S (next w)) (<[k := next w]> (sessions w)).

(** [sessions.delete(k)]. *)
Definition deleteSession (k : string) (w : World) : World :=
  mkWorld (heap w) (next w) (delete k (sessions w)).

(** ** The expiry sweep *)

(** The loop body of [cleanupOldSessions] deletes an entry when
    [now - session.createdAt > maxAgeMs]; the source fixes
    [maxAgeMs = 5 * 60 * 1000].  Timestamps are integral milliseconds far
    below 2^53, so the subtraction on doubles is the one on [Z]. *)
Definition expired (maxAgeMs now : Z) (s : Session) : Prop :=
  now - createdAt s > maxAgeMs.

Global Instance expired_dec maxAgeMs now s : Decision (expired maxAgeMs now s).
Proof. unfold expired. apply _. Defined.

Definition sweep (maxAgeMs now : Z) (w : World) : World :=
  mkWorld (heap w) (next w)
          (filter (λ kr, ¬ expired maxAgeMs now (heap w kr.2)) (sessions w)).

(** [cleanupOldSessions()], with [now] the value of its [Date.now()]. *)
Definition cleanupOldSessions (now : Z) (w : World) : World :=
  sweep (5 * 60 * 1000) now w.

(** ** The protocol handler *)

(** [MCPRequest.id]: a number or a string; absent is [None]. *)
Inductive RequestId := IdNumber (n : Z) | IdString (s : string).

(** [params] is only ever read at [name], and the source casts that
    property to [string]: [name] is the string found there, [None] when
    the record has no such property.  A request is taken at its declared
    type [MCPRequest]: an object whose [method] is a string. *)
Record Params := mkParams { name : option string }.

Record MCPRequest := mkRequest {
  req_id : option RequestId;
  method : string;
  params : option Params
}.

Record ContentItem := mkContent { type : string; text : string }.

Record Tool := mkTool { tool_name : string; description : string }.

(** The three shapes of [MCPResponse.result] the handler builds. *)
Inductive Payload :=
  | InitializeResult (protocolVersion serverName serverVersion : string)
  | ToolsListResult (tools : list Tool)
  | ToolResult (content : list ContentItem).

Record RpcError := mkRpcError { code : Z; message : string }.

Record MCPResponse := mkResponse {
  jsonrpc : string;
  resp_id : option RequestId;
  resp_result : option Payload;
  resp_error : option RpcError
}.

(** A string in a boolean position: [undefined] and the empty string are
    falsy. *)
Definition truthy (o : option string) : bool :=
  match o with
  | Some s => negb (String.eqb s "")
  | None => false
  end.

(** A string interpolated in a template literal. *)
Definition interpolate (o : option string) : string :=
  match o with
  | Some s => s
  | None => "undefined"
  end.

(** [a || b] on strings. *)
Definition orElse (o : option string) (d : string) : string :=
  if truthy o then interpolate o else d.

(** The four ways the wait loop answers. *)
Inductive Verdict :=
  | Expired
  | Success (transcript : string)
  | Failure (reason : string)
  | Timeout (recordUrl : string).

Definition verdictText (v : Verdict) : string :=
  match v with
  | Expired => "❌ 会话已过期，请重试。"
  | Success transcript => "🎤 转写结果：" +:+ transcript
  | Failure reason => "❌ 转写失败：" +:+ reason
  | Timeout recordUrl => "⏰ 录音超时（60秒）。请打开此链接录音：" +:+ recordUrl
  end.

(** [{ jsonrpc: "2.0", id, result: { content: [{ type: "text", text }] } }] *)
Definition respond (i : option RequestId) (v : Verdict) : MCPResponse :=
  mkResponse "2.0" i (Some (ToolResult [mkContent "text" (verdictText v)])) None.

(** [{ jsonrpc: "2.0", id, error: { code: -32601, message } }] *)
Definition notFound (i : option RequestId) (msg : string) : MCPResponse :=
  mkResponse "2.0" i None (Some (mkRpcError (-32601) msg)).

Definition maxWait : Z := 60000.

(** One pass through the body of [while (true)]: either a [return], with
    the state it leaves, or the 500 ms suspension.  [now] is what
    [Date.now()] yields in this pass. *)
Inductive Pass := Return (r : MCPResponse) (w : World) | Suspend.

Definition iteration (i : option RequestId) (sessionId recordUrl : string)
    (startTime now : Z) (w : World) : Pass :=
  match get sessionId w with
  | None => Return (respond i Expired) w
  | Some currentSession =>
    if bool_decide (status currentSession = Completed)
       && truthy (result currentSession)
    then Return (respond i (Success (interpolate (result currentSession))))
                (deleteSession sessionId w)
    else if bool_decide (status currentSession = Error)
    then Return (respond i (Failure (orElse (error currentSession) "未知错误")))
                (deleteSession sessionId w)
    else if bool_decide (now - startTime > maxWait)
    then Return (respond i (Timeout recordUrl)) (deleteSession sessionId w)
    else Suspend
  end.

Global Instance Pass_suspend_dec (p : Pass) : Decision (p = Suspend).
Proof. destruct p; [right; discriminate | by left]. Defined.

(** What one tool invocation gets from the runtime: the reading of
    [Date.now()] in [cleanupOldSessions] ([sweepTime]), what
    [generateSessionId()] returns ([uuid]), the reading stored in
    [createdAt] ([createTime]), the value of
    [Deno.env.get("DENO_DEPLOYMENT_ID")], and the reading stored in
    [startTime].  While the loop is suspended the other request handlers
    run: [during k] is what they do to the process state in the [k]-th
    suspension, and [clock k] is the reading of [Date.now()] in pass [k]
    (passes are counted from 0). *)
Record Runtime := mkRuntime {
  sweepTime : Z;
  uuid : string;
  createTime : Z;
  deploymentId : option string;
  startTime : Z;
  clock : nat → Z;
  during : nat → World → World
}.

(** The state pass [k] of the loop finds, when the loop was entered in
    [w] and has not returned before. *)
Fixpoint worldAt (rt : Runtime) (w : World) (k : nat) : World :=
  match k with
  | O => w
  | S k' => during rt k' (worldAt rt w k')
  end.

(** The loop, from pass [k] on.  It has no bound of its own, so the model
    counts passes down from [fuel]; [None] means that the loop is still
    running after [fuel] passes.  A result names the pass that
    returned. *)
Fixpoint waitLoop (fuel : nat) (rt : Runtime) (i : option RequestId)
    (sessionId recordUrl : string) (k : nat) (w : World)
    : option (nat * MCPResponse * World) :=
  match fuel with
  | O => None
  | S fuel' =>
    match iteration i sessionId recordUrl (startTime rt) (clock rt k) w with
    | Return r w' => Some (k, r, w')
    | Suspend => waitLoop fuel' rt i sessionId recordUrl (S k) (during rt k w)
    end
  end.

Definition baseUrl (rt : Runtime) : string :=
  if truthy (deploymentId rt)
  then "https://" +:+ interpolate (deploymentId rt) +:+ ".deno.dev"
  else "http://localhost:8000".

Definition recordUrl (rt : Runtime) : string :=
  baseUrl rt +:+ "/record/" +:+ uuid rt.

(** The state in which the loop of a [voice-to-text] call is entered. *)
Definition created (rt : Runtime) (w : World) : World :=
  setNew (uuid rt)
         (mkSession (uuid rt) (createTime rt) Waiting None None None)
         (cleanupOldSessions (sweepTime rt) w).

Definition toolName (request : MCPRequest) : option string :=
  params request ≫= name.

(** [handleMCPRequest]; [None] only when the wait loop outlasts [fuel]. *)
Definition handleMCPRequest (fuel : nat) (rt : Runtime) (request : MCPRequest)
    (w : World) : option (MCPResponse * World) :=
  if String.eqb (method request) "initialize" then
    Some (mkResponse "2.0" (req_id request)
            (Some (InitializeResult "2024-11-05" "opencode-voice" "1.0.0")) None,
          w)
  else if String.eqb (method request) "tools/list" then
    Some (mkResponse "2.0" (req_id request)
            (Some (ToolsListResult
               [mkTool "voice-to-text"
                  "🎤 语音转文字工具。返回录音链接，用户在浏览器打开录音后自动返回转写的文字。"]))
            None,
          w)
  else if String.eqb (method request) "tools/call" then
    if bool_decide (toolName request = Some "voice-to-text") then
      '(_, r, w') ← waitLoop fuel rt (req_id request) (uuid rt) (recordUrl rt)
                        0%nat (created rt w);
      Some (r, w')
    else
      Some (notFound (req_id request)
              ("Unknown tool: " +:+ interpolate (toolName request)), w)
  else
    Some (notFound (req_id request) ("Method not found: " +:+ method request), w).

(** ** The transcription client *)

(** A thrown value: an [Error] with its message, or anything else. *)
Inductive Thrown := ThrownError (msg : string) | ThrownOther.

Inductive Outcome (A : Type) := Returns (a : A) | Throws (t : Thrown).
Arguments Returns {A} a.
Arguments Throws {A} t.

(** What [response.json()] makes of the body of the upstream's reply: it
    rejects (with the parser's message), or yields [null], or yields a
    value whose [text] property is read.  [text] is [None] when the value
    has no such property; a property that is there is taken to be a
    string, as the declared return type [Promise<string>] has it. *)
Inductive Parsed :=
  | NotJson (msg : string)
  | JsonNull
  | JsonValue (text : option string).

(** What [fetch] comes back with: a rejection (network failure), or a
    response with its status code and its body, both as
    [response.text()] reads it (which may itself throw) and as parsed by
    [response.json()]. *)
Inductive Reply :=
  | FetchFails (msg : string)
  | Response (httpStatus : N) (errorText : Outcome string) (json : Parsed).

(** [response.ok] *)
Definition ok (httpStatus : N) : bool :=
  bool_decide (200 ≤ httpStatus ≤ 299)%N.

(** The message of V8's [TypeError] for [null.text]. *)
Definition nullTextMessage : string :=
  "Cannot read properties of null (reading 'text')".

(** [transcribeAudio(audioData)], with [apiKey] the value of
    [Deno.env.get("SILICONFLOW_API_KEY")] and [reply] the upstream's
    answer to the one request it sends. *)
Definition transcribeAudio (apiKey : option string)
    (audioData : list Byte.byte) (reply : Reply) : Outcome (option string) :=
  if negb (truthy apiKey) then
    Throws (ThrownError "SILICONFLOW_API_KEY not configured")
  else
    match reply with
    | FetchFails msg => Throws (ThrownError msg)
    | Response httpStatus errorText json =>
      if negb (ok httpStatus) then
        match errorText with
        | Returns errorText =>
          Throws (ThrownError ("SiliconFlow API error: " +:+ pretty httpStatus
                               +:+ " - " +:+ errorText))
        | Throws t => Throws t
        end
      else
        match json with
        | NotJson msg => Throws (ThrownError msg)
        | JsonNull => Throws (ThrownError nullTextMessage)
        | JsonValue text => Returns text
        end
    end.

(** ** The upload endpoint *)

(** The object passed to [JSON.stringify] for the response body. *)
Inductive Body :=
  | ErrorBody (error : string)
  | SuccessBody (result : option string).

Record HttpResponse := mkHttp { httpStatus : Z; body : Body }.

(** The handler runs in three stretches, separated by its two [await]s;
    other handlers run in between.  First stretch: look the session up;
    answer 404, or set [status] and keep the reference.  ([transcribeAudio]
    suspends only at its [fetch]; its credential check is modelled with
    the rest of it, in the third stretch.) *)
Definition uploadBegin (sessionId : string) (w : World)
    : HttpResponse + ref * World :=
  match sessions w !! sessionId with
  | None => inl (mkHttp 404 (ErrorBody "Session not found"))
  | Some session => inr (session, update session (set_status Processing) w)
  end.

(** The [catch] block. *)
Definition uploadCatch (session : ref) (t : Thrown) (w : World)
    : HttpResponse * World :=
  let msg := match t with ThrownError m => m | ThrownOther => "Unknown error" end in
  (mkHttp 500 (ErrorBody msg),
   update session (set_error msg) (update session (set_status Error) w)).

(** Second stretch, after [await req.arrayBuffer()]: the bytes are stored
    with [update session (set_audioData audioData)], or reading threw and
    the [catch] block runs.  Third stretch, after
    [await transcribeAudio(audioData)]: *)
Definition uploadFinish (session : ref) (transcribed : Outcome (option string))
    (w : World) : HttpResponse * World :=
  match transcribed with
  | Returns result =>
    (mkHttp 200 (SuccessBody result),
     update session (set_status Completed)
       (update session (set_result result) w))
  | Throws t => uploadCatch session t w
  end.

(** The upload branch of [handler] when nothing else runs during its
    [await]s. *)
Definition handlerUpload (sessionId : string) (read : Outcome (list Byte.byte))
    (apiKey : option string) (reply : Reply) (w : World)
    : HttpResponse * World :=
  match uploadBegin sessionId w with
  | inl notFoundResponse => (notFoundResponse, w)
  | inr (session, w1) =>
    match read with
    | Throws t => uploadCatch session t w1
    | Returns audioData =>
      uploadFinish session (transcribeAudio apiKey audioData reply)
                   (update session (set_audioData audioData) w1)
    end
  end.

(** ** The process as a transition system *)

(** The handlers run on one thread and interleave at their [await]s.  A
    state of the process is the store together with the uploads that are
    between two stretches, each holding its session reference (and, once
    read, its bytes).  [begun] is history: the reference of every upload
    that found its session, most recent first. *)
Inductive Stage := Reading | Transcribing (audioData : list Byte.byte).

Global Instance byte_eq_dec : EqDecision Byte.byte := Byte.byte_eq_dec.
Global Instance Stage_eq_dec : EqDecision Stage.
Proof. solve_decision. Defined.

Record System := mkSystem {
  world : World;
  inflight : list (ref * Stage);
  begun : list ref
}.

Definition initial : System := mkSystem emptyWorld [] [].

(** One uninterrupted stretch of some handler. *)
Inductive Event :=
  | ToolCallBegins (uuid : string) (sweepTime createTime : Z)
  | LoopPasses (i : option RequestId) (sessionId recordUrl : string)
               (startTime now : Z)
  | UploadBegins (sessionId : string)
  | UploadReads (session : ref) (read : Outcome (list Byte.byte))
  | UploadTranscribed (session : ref) (audioData : list Byte.byte)
                      (apiKey : option string) (reply : Reply).

(** Take one occurrence of [x] out of [l], if there is one. *)
Fixpoint takeOut {A} `{EqDecision A} (x : A) (l : list A) : option (list A) :=
  match l with
  | [] => None
  | y :: l' => if decide (x = y) then Some l' else (y ::.) <$> takeOut x l'
  end.

(** The state after an event; [None] when the event cannot happen in this
    state (a continuation of an upload that is not in flight). *)
Definition step (e : Event) (s : System) : option System :=
  match e with
  | ToolCallBegins uuid sweepTime createTime =>
    Some (mkSystem
            (setNew uuid (mkSession uuid createTime Waiting None None None)
                    (cleanupOldSessions sweepTime (world s)))
            (inflight s) (begun s))
  | LoopPasses i sessionId recordUrl startTime now =>
    match iteration i sessionId recordUrl startTime now (world s) with
    | Return _ w' => Some (mkSystem w' (inflight s) (begun s))
    | Suspend => Some s
    end
  | UploadBegins sessionId =>
    match uploadBegin sessionId (world s) with
    | inl _ => Some s
    | inr (session, w') =>
      Some (mkSystem w' ((session, Reading) :: inflight s) (session :: begun s))
    end
  | UploadReads session read =>
    rest ← takeOut (session, Reading) (inflight s);
    match read with
    | Returns audioData =>
      Some (mkSystem (update session (set_audioData audioData) (world s))
                     ((session, Transcribing audioData) :: rest) (begun s))
    | Throws t =>
      Some (mkSystem (uploadCatch session t (world s)).2 rest (begun s))
    end
  | UploadTranscribed session audioData apiKey reply =>
    rest ← takeOut (session, Transcribing audioData) (inflight s);
    Some (mkSystem
            (uploadFinish session (transcribeAudio apiKey audioData reply)
                          (world s)).2
            rest (begun s))
  end.

Fixpoint run (es : list Event) (s : System) : option System :=
  match es with
  | [] => Some s
  | e :: es' => step e s ≫= run es'
  end.

(** What pass [k] of the loop does, when the loop was entered in [w]. *)
Definition passAt (rt : Runtime) (i : option RequestId)
    (sessionId recordUrl : string) (w : World) (k : nat) : Pass :=
  iteration i sessionId recordUrl (startTime rt) (clock rt k) (worldAt rt w k).

(** [needle] occurs in [hay]. *)
Definition contains (needle hay : string) : Prop :=
  ∃ before after, hay = before +:+ needle +:+ after.

(** How far along [waiting → processing → {completed, error}] a status
    is. *)
Definition stage (st : Status) : nat :=
  match st with
  | Waiting => 0
  | Recording => 1
  | Processing => 2
  | Completed | Error => 3
  end.

(** Number of occurrences of a reference in a list. *)
Definition count (r : ref) (l : list ref) : nat :=
  length (filter (λ x, x = r) l).

(** Uploads for the object [r] that found it, so far. *)
Definition uploadsBegun (r : ref) (s : System) : nat := count r (begun s).

(** Uploads for the object [r] that are between two stretches. *)
Definition uploadsInFlight (r : ref) (s : System) : nat :=
  count r (inflight s).*1.

(** What holds in every state the process reaches.  The uploads begun
    for an object and not in flight have run to their end;
    each of those has written [result] or [error], and nothing else
    writes these fields. *)
Record Invariant (s : System) : Prop := mkInvariant {
  inv_flying : ∀ r, (uploadsInFlight r s ≤ uploadsBegun r s)%nat;
  inv_none_ended : ∀ r,
    uploadsBegun r s = uploadsInFlight r s →
    result (heap (world s) r) = None ∧ error (heap (world s) r) = None;
  inv_one_ended : ∀ r,
    (uploadsBegun r s ≤ uploadsInFlight r s + 1)%nat →
    result (heap (world s) r) = None ∨ error (heap (world s) r) = None;
  inv_unused : ∀ r, (next (world s) ≤ r)%nat → uploadsBegun r s = 0%nat;
  inv_allocated : ∀ k r,
    sessions (world s) !! k = Some r → (r < next (world s))%nat
}.

(** No two identifiers of the store share a session object: every
    [sessions.set] stores an object built on the spot. *)
Definition distinctObjects (w : World) : Prop :=
  ∀ k1 k2 r, sessions w !! k1 = Some r → sessions w !! k2 = Some r → k1 = k2.

(** ** The request handler *)

(** [s.startsWith(searchString)] *)
Definition startsWith (s searchString : string) : bool :=
  String.prefix searchString s.

(** [s.slice(n)] *)
Fixpoint dropChars (n : nat) (s : string) : string :=
  match n, s with
  | O, _ => s
  | S n', String _ s' => dropChars n' s'
  | S _, EmptyString => EmptyString
  end.

(** [s.replace(pattern, "")] with a string pattern: the leftmost
    occurrence of [pattern] is taken out; [s] is returned as it is when
    there is none. *)
Fixpoint replaceFirst (pattern s : string) : string :=
  if String.prefix pattern s then dropChars (String.length pattern) s
  else match s with
       | EmptyString => EmptyString
       | String c s' => String c (replaceFirst pattern s')
       end.

(** What the handler reads of a request: [req.method]; [pathname], which
    is [new URL(req.url).pathname], the path as the URL parser leaves it
    (percent-encoded, dot segments resolved, query and fragment cut
    off); and what [await req.json()] and [await req.arrayBuffer()]
    yield when the branch taken asks for them. *)
Record Request := mkHttpRequest {
  httpMethod : string;
  pathname : string;
  jsonBody : Outcome MCPRequest;
  rawBody : Outcome (list Byte.byte)
}.

(** The body of a response: none, a text, the document
    [generateRecordingPage(sessionId)] builds (which depends on the
    request through [sessionId] only), or the value handed to
    [JSON.stringify]. *)
Inductive Content :=
  | NoBody
  | Plain (text : string)
  | Page (sessionId : string)
  | RpcJson (response : MCPResponse)
  | UploadJson (b : Body)
  | StatusJson (status : Status) (result error : option string).

Record Served := mkServed {
  servedStatus : Z;
  servedHeaders : list (string * string);
  content : Content
}.

Definition corsHeaders : list (string * string) :=
  [("Access-Control-Allow-Origin", "*");
   ("Access-Control-Allow-Methods", "GET, POST, OPTIONS");
   ("Access-Control-Allow-Headers", "Content-Type, Authorization")].

Definition jsonHeaders : list (string * string) :=
  ("Content-Type", "application/json") :: corsHeaders.

(** [{ jsonrpc: "2.0", error: { code: -32700, message: "Parse error" } }] *)
Definition parseError : MCPResponse :=
  mkResponse "2.0" None None (Some (mkRpcError (-32700) "Parse error")).

(** [handler(req)], when nothing else runs during the [await]s of the
    upload branch; [None] only when the wait loop of a tool call
    outlasts [fuel].  The status of a response is 200 where the source
    gives none. *)
Definition handler (fuel : nat) (rt : Runtime) (apiKey : option string)
    (reply : Reply) (req : Request) (w : World) : option (Served * World) :=
  if String.eqb (httpMethod req) "OPTIONS" then
    Some (mkServed 200 corsHeaders NoBody, w)
  else if String.eqb (pathname req) "/mcp"
          && String.eqb (httpMethod req) "POST" then
    match jsonBody req with
    | Returns request =>
      '(response, w') ← handleMCPRequest fuel rt request w;
      Some (mkServed 200 jsonHeaders (RpcJson response), w')
    | Throws _ => Some (mkServed 400 jsonHeaders (RpcJson parseError), w)
    end
  else if startsWith (pathname req) "/record/" then
    Some (mkServed 200
            (("Content-Type", "text/html; charset=utf-8") :: corsHeaders)
            (Page (replaceFirst "/record/" (pathname req))), w)
  else if startsWith (pathname req) "/api/upload/"
          && String.eqb (httpMethod req) "POST" then
    let '(r, w') := handlerUpload (replaceFirst "/api/upload/" (pathname req))
                                  (rawBody req) apiKey reply w in
    Some (mkServed (httpStatus r) jsonHeaders (UploadJson (body r)), w')
  else if startsWith (pathname req) "/api/status/" then
    match get (replaceFirst "/api/status/" (pathname req)) w with
    | None =>
      Some (mkServed 404 jsonHeaders (UploadJson (ErrorBody "Session not found")),
            w)
    | Some session =>
      Some (mkServed 200 jsonHeaders
              (StatusJson (status session) (result session) (error session)),
            w)
    end
  else if String.eqb (pathname req) "/" then
    Some (mkServed 302 (("Location", "/record/demo") :: corsHeaders) NoBody, w)
  else
    Some (mkServed 404 corsHeaders (Plain "Not Found"), w).

(** ** The recording page: the WAV encoder *)

(** The script of the recording page turns the recording into a WAV
    file before it uploads it.  A [DataView] over an [ArrayBuffer] is
    the list of its bytes, each a number from 0 to 255. *)

(** [new ArrayBuffer(n)] *)
Definition newBuffer (n : nat) : list Z := replicate n 0.

(** The low [n] bytes of the integer [v], least significant first: what
    a little-endian [setUint8], [setUint16], [setInt16] or [setUint32]
    stores for [v], which they first reduce modulo 2^8, 2^16 or 2^32. *)
Fixpoint leBytes (n : nat) (v : Z) : list Z :=
  match n with
  | O => []
  | S n' => v mod 256 :: leBytes n' (v / 256)
  end.

(** The unsigned number a little-endian read makes of bytes. *)
Definition leValue (bs : list Z) : Z := foldr (λ b acc, b + 256 * acc) 0 bs.

(** A write of [bs] at [byteOffset]; [None] is the [RangeError] a
    [DataView] throws, before it writes anything, when the bytes would
    go past the end. *)
Definition setBytes (view : list Z) (byteOffset : nat) (bs : list Z)
    : option (list Z) :=
  if (byteOffset + length bs <=? length view)%nat
  then Some (take byteOffset view ++ bs
             ++ drop (byteOffset + length bs) view)
  else None.

Definition getBytes (view : list Z) (byteOffset n : nat) : option (list Z) :=
  if (byteOffset + n <=? length view)%nat
  then Some (take n (drop byteOffset view))
  else None.

(** [view.setUint8(byteOffset, value)] *)
Definition setUint8 (view : list Z) (byteOffset : nat) (value : Z) :=
  setBytes view byteOffset (leBytes 1 value).

(** [view.setUint16(byteOffset, value, true)] *)
Definition setUint16 (view : list Z) (byteOffset : nat) (value : Z) :=
  setBytes view byteOffset (leBytes 2 value).

(** [view.setInt16(byteOffset, value, true)]: the same bytes, in two's
    complement. *)
Definition setInt16 (view : list Z) (byteOffset : nat) (value : Z) :=
  setBytes view byteOffset (leBytes 2 value).

(** [view.setUint32(byteOffset, value, true)] *)
Definition setUint32 (view : list Z) (byteOffset : nat) (value : Z) :=
  setBytes view byteOffset (leBytes 4 value).

(** [view.getUint16(byteOffset, true)] and [view.getUint32(byteOffset,
    true)], with which a reader of the file decodes it. *)
Definition getUint16 (view : list Z) (byteOffset : nat) : option Z :=
  leValue <$> getBytes view byteOffset 2.

Definition getUint32 (view : list Z) (byteOffset : nat) : option Z :=
  leValue <$> getBytes view byteOffset 4.

(** [string.charCodeAt(i)] for the characters of [s]; the script has
    ASCII strings only, for which the code unit is the byte. *)
Fixpoint charCodes (s : string) : list Z :=
  match s with
  | EmptyString => []
  | String c s' => Z.of_N (Ascii.N_of_ascii c) :: charCodes s'
  end.

(** [writeString(view, offset, string)] *)
Fixpoint writeString (view : list Z) (offset : nat) (s : string)
    : option (list Z) :=
  match s with
  | EmptyString => Some view
  | String c s' =>
    view' ← setUint8 view offset (Z.of_N (Ascii.N_of_ascii c));
    writeString view' (S offset) s'
  end.

Section Wav.

(** A sample is a floating-point number; [quantize s] stands for the
    integer [setInt16] makes of
    [s' < 0 ? s' * 0x8000 : s' * 0x7FFF], where [s'] is [s] clamped to
    [-1, 1]. *)
Context {Sample : Type} (quantize : Sample → Z).

(** [floatTo16BitPCM(view, offset, input)] *)
Fixpoint floatTo16BitPCM (view : list Z) (offset : nat) (input : list Sample)
    : option (list Z) :=
  match input with
  | [] => Some view
  | s :: input' =>
    view' ← setInt16 view offset (quantize s);
    floatTo16BitPCM view' (offset + 2) input'
  end.

(** [convertToWav(blob)] from the decoded audio on: [sampleRate] is
    [audioBuffer.sampleRate], taken to be an integer, and [data] is
    [audioBuffer.getChannelData(0)].  The result is the content of the
    blob. *)
Definition convertToWav (sampleRate : Z) (data : list Sample)
    : option (list Z) :=
  let numChannels := 1 in
  let format := 1 in
  let bitDepth := 16 in
  let dataLength := (length data * (16 / 8))%nat in
  let headerLength := 44%nat in
  let totalLength := (headerLength + dataLength)%nat in
  view ← writeString (newBuffer totalLength) 0 "RIFF";
  view ← setUint32 view 4 (Z.of_nat totalLength - 8);
  view ← writeString view 8 "WAVE";
  view ← writeString view 12 "fmt ";
  view ← setUint32 view 16 16;
  view ← setUint16 view 20 format;
  view ← setUint16 view 22 numChannels;
  view ← setUint32 view 24 sampleRate;
  view ← setUint32 view 28 (sampleRate * numChannels * (bitDepth / 8));
  view ← setUint16 view 32 (numChannels * (bitDepth / 8));
  view ← setUint16 view 34 bitDepth;
  view ← writeString view 36 "data";
  view ← setUint32 view 40 (Z.of_nat dataLength);
  floatTo16BitPCM view 44 data.

End Wav.

(** The 44 bytes of the header, field by field, and the bytes of the
    samples, as [convertToWav] is shown below to lay them out. *)
Definition wavHeader (sampleRate : Z) (samples : nat) : list Z :=
  charCodes "RIFF"
  ++ leBytes 4 (Z.of_nat (44 + samples * (16 / 8)) - 8)
  ++ charCodes "WAVE"
  ++ charCodes "fmt "
  ++ leBytes 4 16
  ++ leBytes 2 1
  ++ leBytes 2 1
  ++ leBytes 4 sampleRate
  ++ leBytes 4 (sampleRate * 1 * (16 / 8))
  ++ leBytes 2 (1 * (16 / 8))
  ++ leBytes 2 16
  ++ charCodes "data"
  ++ leBytes 4 (Z.of_nat (samples * (16 / 8))).

Definition wavPayload {Sample : Type} (quantize : Sample → Z)
    (data : list Sample) : list Z :=
  data ≫= λ s, leBytes 2 (quantize s).

(** Every session in the store carries the identifier it is stored
    under. *)
Definition keysAreIds (w : World) : Prop :=
  ∀ k r, sessions w !! k = Some r → id (heap w r) = k.

(** ** Scenarios *)

Definition voiceToText : MCPRequest :=
  mkRequest (Some (IdNumber 1)) "tools/call"
            (Some (mkParams (Some "voice-to-text"))).

(** Nothing else runs while the loop waits; a pass takes no time and
    every suspension lasts exactly 500 ms. *)
Definition quiet : Runtime :=
  mkRuntime 1000 "abc" 1000 None 1000
            (λ k, 1000 + 500 * Z.of_nat k) (λ _ w, w).

(** As [quiet], but during the first suspension a recording is uploaded
    and the upstream answers [reply]. *)
Definition withUpload (reply : Reply) : Runtime :=
  mkRuntime 1000 "abc" 1000 None 1000
            (λ k, 1000 + 500 * Z.of_nat k)
            (λ k w, match k with
                    | O => (handlerUpload "abc" (Returns []) (Some "sk-1")
                                          reply w).2
                    | S _ => w
                    end).

Definition helloWorld : Reply :=
  Response 200 (Returns "") (JsonValue (Some "hello world")).

(** A 200 reply whose body is the JSON object without any property. *)
Definition noText : Reply := Response 200 (Returns "{}") (JsonValue None).

(** One invocation; a recording is uploaded and transcribed; then,
    before the loop's next pass, a second upload for the same identifier
    begins, and later fails with the upstream answering 500. *)
Definition firstUpload : list Event :=
  [ToolCallBegins "abc" 1000 1000;
   LoopPasses None "abc" "http://localhost:8000/record/abc" 1000 1000;
   UploadBegins "abc";
   UploadReads 0 (Returns []);
   UploadTranscribed 0 [] (Some "sk-1") helloWorld].

Definition secondUpload : list Event :=
  [UploadBegins "abc";
   LoopPasses None "abc" "http://localhost:8000/record/abc" 1000 1500;
   UploadReads 0 (Returns []);
   UploadTranscribed 0 [] (Some "sk-1") (Response 500 (Returns "overloaded") (NotJson ""))].

(** As [quiet], but the first pass reads the clock [d] ms after the
    loop's start. *)
Definition quietFrom (d : Z) : Runtime :=
  mkRuntime 1000 "abc" 1000 None 1000
            (λ k, 1000 + d + 500 * Z.of_nat k) (λ _ w, w).

(** Two uploads for one session overlap: both begin and read their
    bodies, then the first is transcribed. *)
Definition overlappingUploads : list Event :=
  [ToolCallBegins "abc" 1000 1000;
   UploadBegins "abc";
   UploadBegins "abc";
   UploadReads 0 (Returns []);
   UploadReads 0 (Returns []);
   UploadTranscribed 0 [] (Some "sk-1") helloWorld].

(** ** Theorems *)

Section Sweep.
Variables (T now : Z) (w : World).

Lemma sweep_lookup (k : string) :
  sessions (sweep T now w) !! k =
  match sessions w !! k with
  | Some r => if decide (expired T now (heap w r)) then None else Some r
  | None => None
  end.
Proof.
  unfold sweep; simpl. rewrite map_lookup_filter.
  destruct (sessions w !! k) as [r|]; simpl; [|done].
  destruct (decide (expired T now (heap w r))); simpl.
  - rewrite option_guard_False; [done | tauto].
  - by rewrite option_guard_True.
Qed.

Lemma sweep_heap : heap (sweep T now w) = heap w.
Proof. reflexivity. Qed.
End Sweep.

(** C6.  The sweep with threshold [T] keeps exactly the entries whose age
    [now - createdAt] is at most [T]: an entry older than [T] is gone
    whatever its status, an entry of age at most [T] is still there under
    the same identifier, no entry appears, and no session object is
    written to.  [cleanupOldSessions] is the sweep at [T = 300000]. *)
Theorem sweep_removes_exactly_the_old (T now : Z) (w : World) (k : string) :
  get k (sweep T now w) =
    match get k w with
    | Some s => if decide (now - createdAt s > T) then None else Some s
    | None => None
    end
  ∧ heap (sweep T now w) = heap w
  ∧ cleanupOldSessions now w = sweep 300000 now w.
Proof.
  split; [|split; reflexivity].
  unfold get. rewrite sweep_lookup, sweep_heap.
  destruct (sessions w !! k) as [r|]; simpl; [|done].
  unfold expired. by destruct (decide (now - createdAt (heap w r) > T)).
Qed.

(** *** The store *)

Section Store.
Variable w : World.

Lemma get_None (k : string) : get k w = None ↔ sessions w !! k = None.
Proof. unfold get. apply fmap_None. Qed.

Lemma get_deleteSession (k : string) : get k (deleteSession k w) = None.
Proof. unfold get, deleteSession; simpl. by rewrite lookup_delete_eq. Qed.

Lemma heap_update_eq (r : ref) (f : Session → Session) :
  heap (update r f w) r = f (heap w r).
Proof. unfold update; simpl. apply fn_lookup_alter. Qed.

Lemma heap_update_ne (r r' : ref) (f : Session → Session) :
  r ≠ r' → heap (update r f w) r' = heap w r'.
Proof. intros. unfold update; simpl. by apply fn_lookup_alter_ne. Qed.

Lemma get_update (k : string) (r : ref) (f : Session → Session) :
  sessions w !! k = Some r → get k (update r f w) = Some (f (heap w r)).
Proof.
  intros Hk. unfold get. change (sessions (update r f w)) with (sessions w).
  rewrite Hk. cbn [fmap option_fmap option_map]. f_equal. apply heap_update_eq.
Qed.
End Store.

(** *** The protocol handler outside the wait loop *)

(** C9.  A [tools/call] request whose tool name is not ["voice-to-text"]
    (also when there is no name at all), and a request whose method is
    none of [initialize], [tools/list] and [tools/call], are answered,
    whatever the fuel, with the envelope
    [{jsonrpc: "2.0", id, error: {code: -32601, message}}] and no
    [result]; the process state is left as it was. *)
Theorem unknown_tool_or_method_is_answered_with_32601
    (fuel : nat) (rt : Runtime) (request : MCPRequest) (w : World) :
  (method request = "tools/call" ∧ toolName request ≠ Some "voice-to-text")
  ∨ (method request ≠ "initialize" ∧ method request ≠ "tools/list"
     ∧ method request ≠ "tools/call") →
  ∃ msg,
    handleMCPRequest fuel rt request w =
      Some (mkResponse "2.0" (req_id request) None
              (Some (mkRpcError (-32601) msg)), w)
    ∧ (msg = "Unknown tool: " +:+ interpolate (toolName request)
       ∨ msg = "Method not found: " +:+ method request).
Proof.
  unfold handleMCPRequest.
  intros [[Hm Hn] | (H1 & H2 & H3)].
  - rewrite Hm; simpl. rewrite bool_decide_eq_false_2 by done.
    eexists; split; [reflexivity | by left].
  - apply String.eqb_neq in H1, H2, H3. rewrite H1, H2, H3.
    eexists; split; [reflexivity | by right].
Qed.

Lemma unknown_tool_or_method_witness :
  ∃ msg,
    handleMCPRequest 0 (mkRuntime 0 "u" 0 None 0 (λ _, 0) (λ _ w, w))
      (mkRequest (Some (IdNumber 7)) "tools/call"
                 (Some (mkParams (Some "text-to-voice")))) emptyWorld =
      Some (mkResponse "2.0" (Some (IdNumber 7)) None
              (Some (mkRpcError (-32601) msg)), emptyWorld)
    ∧ (msg = "Unknown tool: " +:+ interpolate (Some "text-to-voice")
       ∨ msg = "Method not found: " +:+ "tools/call").
Proof.
  apply (unknown_tool_or_method_is_answered_with_32601 0
           (mkRuntime 0 "u" 0 None 0 (λ _, 0) (λ _ w, w))
           (mkRequest (Some (IdNumber 7)) "tools/call"
                      (Some (mkParams (Some "text-to-voice")))) emptyWorld).
  left. split; [reflexivity | discriminate].
Defined.

(** *** The upload endpoint *)

(** C8.  An upload for an identifier that is not in the store is answered
    with status 404 and the body [{error: "Session not found"}], and
    leaves the process state exactly as it was: no entry of the store, no
    session object and no upload in flight changes. *)
Theorem upload_for_unknown_session_is_404
    (sessionId : string) (read : Outcome (list Byte.byte))
    (apiKey : option string) (reply : Reply) (s : System) :
  get sessionId (world s) = None →
  handlerUpload sessionId read apiKey reply (world s)
    = (mkHttp 404 (ErrorBody "Session not found"), world s)
  ∧ step (UploadBegins sessionId) s = Some s.
Proof.
  intros H%get_None. unfold handlerUpload, step, uploadBegin.
  by rewrite H.
Qed.

Lemma upload_for_unknown_session_witness :
  get "never-created" (world initial) = None
  ∧ handlerUpload "never-created" (Returns []) (Some "sk-1")
      (Response 200 (Returns "") (JsonValue (Some "hello"))) (world initial)
    = (mkHttp 404 (ErrorBody "Session not found"), world initial)
  ∧ step (UploadBegins "never-created") initial = Some initial.
Proof.
  split; [reflexivity |].
  apply (upload_for_unknown_session_is_404 "never-created" (Returns [])
           (Some "sk-1") (Response 200 (Returns "") (JsonValue (Some "hello")))
           initial).
  reflexivity.
Defined.

Lemma get_Some (k : string) (w : World) (s : Session) :
  get k w = Some s ↔ ∃ r, sessions w !! k = Some r ∧ s = heap w r.
Proof. unfold get. apply fmap_Some. Qed.

Section Upload.
Variables (sessionId : string) (w : World) (s : Session).
Hypothesis Hs : get sessionId w = Some s.

Lemma handlerUpload_returns (audioData : list Byte.byte)
    (apiKey : option string) (reply : Reply) (text : option string) :
  transcribeAudio apiKey audioData reply = Returns text →
  ∃ w', handlerUpload sessionId (Returns audioData) apiKey reply w
          = (mkHttp 200 (SuccessBody text), w')
        ∧ get sessionId w'
          = Some (mkSession (id s) (createdAt s) Completed (Some audioData)
                            text (error s)).
Proof.
  apply get_Some in Hs as (r & Hr & ->). intros Ht.
  unfold handlerUpload, uploadBegin. rewrite Hr, Ht.
  eexists. split; [reflexivity |].
  unfold get; simpl. rewrite Hr; simpl.
  by rewrite !fn_lookup_alter.
Qed.

Lemma handlerUpload_throws (audioData : list Byte.byte)
    (apiKey : option string) (reply : Reply) (msg : string) :
  transcribeAudio apiKey audioData reply = Throws (ThrownError msg) →
  ∃ w', handlerUpload sessionId (Returns audioData) apiKey reply w
          = (mkHttp 500 (ErrorBody msg), w')
        ∧ get sessionId w'
          = Some (mkSession (id s) (createdAt s) Error (Some audioData)
                            (result s) (Some msg)).
Proof.
  apply get_Some in Hs as (r & Hr & ->). intros Ht.
  unfold handlerUpload, uploadBegin. rewrite Hr, Ht.
  eexists. split; [reflexivity |].
  unfold get; simpl. rewrite Hr; simpl.
  by rewrite !fn_lookup_alter.
Qed.
End Upload.

(** C4, as the code has it.  With the credential configured and a
    successful HTTP status, a body that parses to a value without a
    [text] property does not make [transcribeAudio] fail: it returns the
    missing value.  The upload then answers 200 with a body that has no
    result, and leaves the session completed with no result and [error]
    as it was.  [transcribeAudio] fails, and the session ends in error
    state with the thrown message, only when the body does not parse or
    parses to [null]. *)
Theorem missing_text_is_returned_as_success
    (apiKey : option string) (audioData : list Byte.byte) (code : N)
    (errorText : Outcome string) (sessionId : string) (w : World) (s : Session) :
  truthy apiKey = true → ok code = true → get sessionId w = Some s →
  transcribeAudio apiKey audioData (Response code errorText (JsonValue None))
    = Returns None
  ∧ (∃ w', handlerUpload sessionId (Returns audioData) apiKey
             (Response code errorText (JsonValue None)) w
             = (mkHttp 200 (SuccessBody None), w')
           ∧ get sessionId w'
             = Some (mkSession (id s) (createdAt s) Completed (Some audioData)
                               None (error s)))
  ∧ (∀ json msg,
       json = NotJson msg ∨ (json = JsonNull ∧ msg = nullTextMessage) →
       transcribeAudio apiKey audioData (Response code errorText json)
         = Throws (ThrownError msg)
       ∧ ∃ w', handlerUpload sessionId (Returns audioData) apiKey
                 (Response code errorText json) w
                 = (mkHttp 500 (ErrorBody msg), w')
               ∧ get sessionId w'
                 = Some (mkSession (id s) (createdAt s) Error (Some audioData)
                                   (result s) (Some msg))).
Proof.
  intros Hk Hok Hs.
  assert (Hv : ∀ json, transcribeAudio apiKey audioData
                         (Response code errorText json)
                       = match json with
                         | NotJson msg => Throws (ThrownError msg)
                         | JsonNull => Throws (ThrownError nullTextMessage)
                         | JsonValue text => Returns text
                         end).
  { intros json. unfold transcribeAudio. by rewrite Hk, Hok. }
  split; [apply Hv |]. split.
  - apply handlerUpload_returns; [done | apply Hv].
  - intros json msg Hj.
    assert (transcribeAudio apiKey audioData (Response code errorText json)
            = Throws (ThrownError msg)) as Ht.
    { rewrite Hv. by destruct Hj as [-> | [-> ->]]. }
    split; [done |]. by apply handlerUpload_throws.
Qed.

Lemma missing_text_is_returned_as_success_witness :
  transcribeAudio (Some "sk-1") [] noText = Returns None
  ∧ ∃ w', handlerUpload "abc" (Returns []) (Some "sk-1") noText
            (created quiet emptyWorld)
          = (mkHttp 200 (SuccessBody None), w')
        ∧ get "abc" w'
          = Some (mkSession "abc" 1000 Completed (Some []) None None).
Proof.
  destruct (missing_text_is_returned_as_success (Some "sk-1") [] 200
              (Returns "{}")
              "abc" (created quiet emptyWorld)
              (mkSession "abc" 1000 Waiting None None None))
    as (H1 & H2 & _); [reflexivity | reflexivity | reflexivity |].
  split; [exact H1 | exact H2].
Defined.

(** C4 as stated fails: the upstream answers 200 with the body [{}];
    [transcribeAudio] returns rather than throws, and the session the
    recording was uploaded for ends completed, not in error. *)
Lemma missing_text_does_not_fail :
  ok 200 = true
  ∧ ¬ (∃ t, transcribeAudio (Some "sk-1") [] noText = Throws t)
  ∧ status <$> get "abc" (handlerUpload "abc" (Returns []) (Some "sk-1") noText
                            (created quiet emptyWorld)).2
    = Some Completed.
Proof.
  split; [reflexivity |]. split; [| reflexivity].
  intros [t Ht]. discriminate Ht.
Qed.

(** *** Strings *)

Lemma append_nil_r (a : string) : a +:+ "" = a.
Proof.
  induction a as [|c a IH]; [done |].
  change (String c (a +:+ "") = String c a). by f_equal.
Qed.

Lemma append_assoc (a b c : string) : (a +:+ b) +:+ c = a +:+ b +:+ c.
Proof.
  induction a as [|x a IH]; [done |].
  change (String x ((a +:+ b) +:+ c) = String x (a +:+ b +:+ c)). by f_equal.
Qed.

Lemma contains_suffix (a b : string) : contains b (a +:+ b).
Proof. exists a, "". by rewrite (append_nil_r b). Qed.

(** *** One pass of the wait loop *)

Lemma truthy_Some (t : string) : truthy (Some t) = true ↔ t ≠ "".
Proof.
  unfold truthy. rewrite negb_true_iff. apply String.eqb_neq.
Qed.

Lemma truthy_result (o : option string) :
  truthy o = true → o = Some (interpolate o) ∧ interpolate o ≠ "".
Proof.
  destruct o as [t|]; [|done]. intros H%truthy_Some. by split.
Qed.

Lemma verdictText_inj (v v' : Verdict) : verdictText v = verdictText v' → v = v'.
Proof.
  destruct v, v'; simpl; intros H; try done; try discriminate H;
    by simplify_eq.
Qed.

Lemma respond_inj (i i' : option RequestId) (v v' : Verdict) :
  respond i v = respond i' v' → i = i' ∧ v = v'.
Proof.
  unfold respond. intros H. injection H as -> H. split; [done |].
  by apply verdictText_inj.
Qed.

Lemma Return_inj (r r' : MCPResponse) (w w' : World) :
  Return r w = Return r' w' → r = r' ∧ w = w'.
Proof. intros H. by injection H. Qed.

Section Iteration.
Variables (i : option RequestId) (sessionId url : string) (start now : Z).
Variable w : World.

Lemma iteration_absent :
  get sessionId w = None →
  iteration i sessionId url start now w = Return (respond i Expired) w.
Proof. unfold iteration. by intros ->. Qed.

Lemma iteration_success (s : Session) :
  get sessionId w = Some s → status s = Completed → truthy (result s) = true →
  iteration i sessionId url start now w
    = Return (respond i (Success (interpolate (result s))))
             (deleteSession sessionId w).
Proof.
  unfold iteration. intros -> Hs Ht.
  by rewrite bool_decide_eq_true_2, Ht.
Qed.

Lemma iteration_error (s : Session) :
  get sessionId w = Some s → status s = Error →
  iteration i sessionId url start now w
    = Return (respond i (Failure (orElse (error s) "未知错误")))
             (deleteSession sessionId w).
Proof.
  unfold iteration. intros -> Hs.
  rewrite bool_decide_eq_false_2 by congruence. simpl.
  by rewrite bool_decide_eq_true_2.
Qed.

(** A session the loop does not consume: there, not in error, and not
    completed with a non-empty result. *)
Lemma iteration_pending (s : Session) :
  get sessionId w = Some s → status s ≠ Error →
  status s ≠ Completed ∨ truthy (result s) = false →
  iteration i sessionId url start now w
    = if bool_decide (now - start > maxWait)
      then Return (respond i (Timeout url)) (deleteSession sessionId w)
      else Suspend.
Proof.
  unfold iteration. intros -> He Hc.
  replace (bool_decide (status s = Completed) && truthy (result s))
    with false.
  - by rewrite (bool_decide_eq_false_2 (status s = Error)).
  - destruct Hc as [Hc | ->].
    + by rewrite bool_decide_eq_false_2.
    + by rewrite andb_false_r.
Qed.

Lemma iteration_returns_success (r : MCPResponse) (w' : World) (t : string) :
  iteration i sessionId url start now w = Return r w' →
  r = respond i (Success t) →
  ∃ s, get sessionId w = Some s ∧ status s = Completed
       ∧ result s = Some t ∧ t ≠ "" ∧ w' = deleteSession sessionId w.
Proof.
  unfold iteration. intros H ->.
  destruct (get sessionId w) as [s|] eqn:Hg.
  - destruct (bool_decide (status s = Completed)) eqn:Hc;
      [destruct (truthy (result s)) eqn:Ht|]; cbn [andb] in H.
    + apply Return_inj in H as [H <-].
      apply respond_inj in H as [_ [= <-]].
      apply bool_decide_eq_true in Hc.
      destruct (truthy_result _ Ht) as [? ?]. by exists s.
    + repeat case_bool_decide; try done;
        apply Return_inj in H as [H _]; by apply respond_inj in H as [_ ?].
    + repeat case_bool_decide; try done;
        apply Return_inj in H as [H _]; by apply respond_inj in H as [_ ?].
  - apply Return_inj in H as [H _]. by apply respond_inj in H as [_ ?].
Qed.
End Iteration.

(** *** The wait loop *)

Lemma first_not_suspended (f : nat → Pass) (N : nat) :
  (∀ j, (j < N)%nat → f j = Suspend)
  ∨ ∃ k, (k < N)%nat ∧ f k ≠ Suspend ∧ ∀ j, (j < k)%nat → f j = Suspend.
Proof.
  induction N as [|N [Hall | (k & Hk & Hne & Hs)]].
  - left. lia.
  - destruct (decide (f N = Suspend)) as [HN | HN].
    + left. intros j Hj.
      destruct (decide (j = N)) as [-> | ?]; [done | apply Hall; lia].
    + right. exists N. split; [lia | done].
  - right. exists k. split; [lia | done].
Qed.

Section WaitLoop.
Variables (rt : Runtime) (i : option RequestId) (sessionId url : string).
Variable w0 : World.

Local Abbreviation pass := (passAt rt i sessionId url w0).
Local Abbreviation loop fuel k :=
  (waitLoop fuel rt i sessionId url k (worldAt rt w0 k)).

(** The loop returns what the first pass that does not suspend
    returns. *)
Lemma waitLoop_sound (fuel k k' : nat) (r : MCPResponse) (w' : World) :
  loop fuel k = Some (k', r, w') →
  (k ≤ k')%nat ∧ pass k' = Return r w'
  ∧ ∀ j, (k ≤ j < k')%nat → pass j = Suspend.
Proof.
  revert k. induction fuel as [|fuel IH]; intros k; simpl; [done |].
  fold (pass k). destruct (pass k) as [r0 w1|] eqn:Hk.
  - intros [= <- <- <-]. repeat split; [lia | done | lia].
  - intros H. apply (IH (S k)) in H as (Hle & Hr & Hs).
    repeat split; [lia | done |].
    intros j Hj. destruct (decide (j = k)) as [-> | ?]; [done |].
    apply Hs. lia.
Qed.

Lemma waitLoop_complete (n k : nat) (r : MCPResponse) (w' : World) :
  (∀ j, (k ≤ j < k + n)%nat → pass j = Suspend) →
  pass (k + n) = Return r w' →
  ∀ fuel, (n < fuel)%nat → loop fuel k = Some ((k + n)%nat, r, w').
Proof.
  revert k. induction n as [|n IH]; intros k Hs Hr [|fuel] Hf; try lia; simpl.
  - fold (pass k). rewrite Nat.add_0_r in Hr. rewrite Hr.
    by rewrite Nat.add_0_r.
  - fold (pass k). rewrite (Hs k) by lia.
    replace (k + S n)%nat with (S k + n)%nat in * by lia.
    apply (IH (S k)); [| done | lia].
    intros j Hj. apply Hs. lia.
Qed.

(** If some pass does not suspend, there is a first such pass. *)
Lemma first_return (N : nat) :
  pass N ≠ Suspend →
  ∃ k, (k ≤ N)%nat ∧ pass k ≠ Suspend ∧ ∀ j, (j < k)%nat → pass j = Suspend.
Proof.
  intros HN.
  destruct (first_not_suspended pass N) as [Hall | (k & Hk & Hne & Hs)].
  - exists N. split; [lia | done].
  - exists k. split; [lia | done].
Qed.

(** Enough fuel: the loop returns by pass [N] at the latest when pass
    [N] does not suspend. *)
Lemma waitLoop_returns (N fuel : nat) :
  pass N ≠ Suspend → (N < fuel)%nat →
  ∃ k r w', (k ≤ N)%nat ∧ loop fuel 0%nat = Some (k, r, w')
            ∧ pass k = Return r w'
            ∧ ∀ j, (j < k)%nat → pass j = Suspend.
Proof.
  intros HN Hf. destruct (first_return N HN) as (k & Hk & Hne & Hs).
  destruct (pass k) as [r w'|] eqn:Hr; [|done].
  exists k, r, w'. repeat split; try done.
  apply (waitLoop_complete k 0 r w'); [intros j Hj; apply Hs; lia | done | lia].
Qed.

(** While the session is there and is not one the loop consumes, the
    loop returns at the first pass whose clock reading is beyond the
    ceiling, and what it returns is the timeout result. *)
Lemma waitLoop_times_out (N fuel : nat) :
  (∀ j, (j ≤ N)%nat →
     ∃ s, get sessionId (worldAt rt w0 j) = Some s ∧ status s ≠ Error
          ∧ (status s ≠ Completed ∨ truthy (result s) = false)) →
  clock rt N - startTime rt > maxWait → (N < fuel)%nat →
  ∃ k, (k ≤ N)%nat
       ∧ loop fuel 0%nat
         = Some (k, respond i (Timeout url),
                 deleteSession sessionId (worldAt rt w0 k))
       ∧ clock rt k - startTime rt > maxWait
       ∧ ∀ j, (j < k)%nat → clock rt j - startTime rt ≤ maxWait.
Proof.
  intros Hp HN Hf.
  assert (Hpass : ∀ j, (j ≤ N)%nat →
            pass j = if bool_decide (clock rt j - startTime rt > maxWait)
                     then Return (respond i (Timeout url))
                                 (deleteSession sessionId (worldAt rt w0 j))
                     else Suspend).
  { intros j Hj. destruct (Hp j Hj) as (s & Hg & He & Hc).
    by apply (iteration_pending _ _ _ _ _ _ s). }
  destruct (waitLoop_returns N fuel) as (k & r & w' & Hk & Hl & Hr & Hs);
    [| done |].
  { rewrite Hpass by lia. by rewrite bool_decide_eq_true_2. }
  exists k. rewrite Hpass in Hr by done.
  case_bool_decide as Hgt; [|done]. apply Return_inj in Hr as [<- <-].
  repeat split; try done.
  intros j Hj. specialize (Hs j Hj). rewrite Hpass in Hs by lia.
  case_bool_decide; [done | lia].
Qed.
End WaitLoop.

(** C5.  When a [voice-to-text] invocation returns the success result
    wrapping a transcript, the pass that returned found the session
    completed with that transcript as its non-empty result, and in the
    state the invocation leaves behind the store has no entry for the
    session identifier. *)
Theorem success_result_leaves_no_session
    (fuel : nat) (rt : Runtime) (request : MCPRequest) (w w' : World)
    (r : MCPResponse) (transcript : string) :
  handleMCPRequest fuel rt request w = Some (r, w') →
  r = respond (req_id request) (Success transcript) →
  get (uuid rt) w' = None
  ∧ ∃ k s, get (uuid rt) (worldAt rt (created rt w) k) = Some s
           ∧ status s = Completed ∧ result s = Some transcript
           ∧ w' = deleteSession (uuid rt) (worldAt rt (created rt w) k).
Proof.
  unfold handleMCPRequest. intros H ->.
  destruct (String.eqb (method request) "initialize"); [discriminate H |].
  destruct (String.eqb (method request) "tools/list"); [discriminate H |].
  destruct (String.eqb (method request) "tools/call"); [| discriminate H].
  case_bool_decide; [| discriminate H].
  destruct (waitLoop fuel rt (req_id request) (uuid rt) (recordUrl rt) 0%nat
              (created rt w)) as [[[k r] w1]|] eqn:Hl; [| discriminate H].
  simpl in H. injection H as -> ->.
  apply (waitLoop_sound _ _ _ _ _ fuel 0%nat) in Hl as (_ & Hp & _).
  eapply iteration_returns_success in Hp as (s & Hg & Hs & Ht & _ & ->);
    [| reflexivity].
  split; [apply get_deleteSession | by eauto 10].
Qed.

Lemma success_result_leaves_no_session_witness :
  ∃ w', handleMCPRequest 5 (withUpload helloWorld) voiceToText emptyWorld
          = Some (respond (Some (IdNumber 1)) (Success "hello world"), w')
        ∧ get "abc" w' = None.
Proof.
  eexists. split; [reflexivity |].
  eapply (success_result_leaves_no_session 5 (withUpload helloWorld)
            voiceToText emptyWorld _ _ "hello world"); reflexivity.
Defined.

(** C10.  The loop returns a success result only from a pass that finds
    the session completed with a non-empty result.  A pass that finds it
    completed with an empty or absent result suspends, unless the clock
    is beyond the ceiling, in which case it returns the timeout result.
    So when the loop is still running at pass [k0], every pass from [k0]
    to [N] finds the session either gone or completed without a result,
    and pass [N] finds it gone or reads a time beyond the ceiling, then
    the loop returns at a pass between [k0] and [N], and what it returns
    is the expired result or the timeout result. *)
Theorem success_only_when_completed_with_text
    (rt : Runtime) (i : option RequestId) (sessionId url : string) (w0 : World) :
  (∀ fuel k r w' transcript,
     waitLoop fuel rt i sessionId url 0%nat w0 = Some (k, r, w') →
     r = respond i (Success transcript) →
     ∃ s, get sessionId (worldAt rt w0 k) = Some s ∧ status s = Completed
          ∧ result s = Some transcript ∧ transcript ≠ "")
  ∧ (∀ k s,
       get sessionId (worldAt rt w0 k) = Some s → status s = Completed →
       result s = None ∨ result s = Some "" →
       passAt rt i sessionId url w0 k
         = if bool_decide (clock rt k - startTime rt > maxWait)
           then Return (respond i (Timeout url))
                       (deleteSession sessionId (worldAt rt w0 k))
           else Suspend)
  ∧ (∀ k0 N fuel,
       (∀ j, (j < k0)%nat → passAt rt i sessionId url w0 j = Suspend) →
       (∀ j, (k0 ≤ j ≤ N)%nat →
          get sessionId (worldAt rt w0 j) = None
          ∨ ∃ s, get sessionId (worldAt rt w0 j) = Some s
                 ∧ status s = Completed
                 ∧ (result s = None ∨ result s = Some "")) →
       get sessionId (worldAt rt w0 N) = None
       ∨ clock rt N - startTime rt > maxWait →
       (k0 ≤ N < fuel)%nat →
       ∃ k v w', (k0 ≤ k ≤ N)%nat
         ∧ waitLoop fuel rt i sessionId url 0%nat w0 = Some (k, respond i v, w')
         ∧ (v = Expired ∨ v = Timeout url)).
Proof.
  assert (Hempty : ∀ k s,
    get sessionId (worldAt rt w0 k) = Some s → status s = Completed →
    result s = None ∨ result s = Some "" →
    passAt rt i sessionId url w0 k
      = if bool_decide (clock rt k - startTime rt > maxWait)
        then Return (respond i (Timeout url))
                    (deleteSession sessionId (worldAt rt w0 k))
        else Suspend).
  { intros k s Hg Hs Hr. apply (iteration_pending _ _ _ _ _ _ s); [done | |].
    - by rewrite Hs.
    - right. by destruct Hr as [-> | ->]. }
  split; [| split; [exact Hempty |]].
  - intros fuel k r w' t Hl Hr.
    apply (waitLoop_sound _ _ _ _ _ fuel 0%nat) in Hl as (_ & Hp & _).
    destruct (iteration_returns_success _ _ _ _ _ _ _ _ _ Hp Hr)
      as (s & ? & ? & ? & ? & _).
    by exists s.
  - intros k0 N fuel Hrun Hall HN Hf.
    destruct (waitLoop_returns rt i sessionId url w0 N fuel)
      as (k & r & w' & Hk & Hl & Hr & _); [| lia |].
    { destruct (Hall N) as [Hg | (s & Hg & Hs & Hres)]; [lia | |].
      - unfold passAt. by rewrite iteration_absent.
      - destruct HN as [HN | HN]; [congruence |].
        rewrite (Hempty N s) by done. by rewrite bool_decide_eq_true_2. }
    assert (k0 ≤ k)%nat as Hk0.
    { destruct (decide (k0 ≤ k)%nat); [done |].
      rewrite Hrun in Hr by lia. discriminate Hr. }
    destruct (Hall k) as [Hg | (s & Hg & Hs & Hres)]; [lia | |].
    + unfold passAt in Hr. rewrite iteration_absent in Hr by done.
      apply Return_inj in Hr as [<- <-]. exists k, Expired. eauto 10.
    + rewrite (Hempty k s) in Hr by done. case_bool_decide; [| done].
      apply Return_inj in Hr as [<- <-]. exists k, (Timeout url). eauto 10.
Qed.

Lemma success_only_when_completed_with_text_witness :
  ∃ k v w', (1 ≤ k ≤ 121)%nat
    ∧ waitLoop 122 (withUpload noText) None "abc" (recordUrl (withUpload noText))
        0%nat (created (withUpload noText) emptyWorld)
      = Some (k, respond None v, w')
    ∧ (v = Expired ∨ v = Timeout (recordUrl (withUpload noText))).
Proof.
  refine (proj2 (proj2 (success_only_when_completed_with_text
            (withUpload noText) None "abc" (recordUrl (withUpload noText))
            (created (withUpload noText) emptyWorld)))
          1%nat 121%nat 122%nat _ _ _ _).
  - intros [|j] Hj; [reflexivity | lia].
  - intros [|j] Hj; [lia |]. right.
    assert (worldAt (withUpload noText) (created (withUpload noText) emptyWorld)
              (S j)
            = worldAt (withUpload noText)
                (created (withUpload noText) emptyWorld) 1) as ->.
    { clear Hj. induction j as [|j IH]; [reflexivity |].
      etrans; [| exact IH]. reflexivity. }
    eexists. split; [reflexivity |]. split; [reflexivity | by left].
  - right. reflexivity.
  - lia.
Defined.

(** C3, as the code has it.  The first pass reads the clock [d] ms
    after the loop's start, for any [d] from 0 to the ceiling, and every
    suspension lasts exactly 500 ms.  If the session is there at every
    pass and its status is neither completed nor error, then the loop
    (given fuel for 122 passes) returns the timeout result, every pass
    before the one that returns suspends, and the time elapsed between
    the loop's start and the return lies in (60000, 60500]: more than
    the ceiling, and at most the ceiling plus one interval.  The check
    is [elapsed > 60000], so a pass at exactly 60000 ms still suspends:
    for [d = 0] the loop returns at pass 121, at exactly 60500 ms; for
    [0 < d < 500] it returns at pass 120, at [60000 + d] ms. *)
Theorem timeout_elapsed_above_ceiling_at_most_one_interval
    (rt : Runtime) (i : option RequestId) (sessionId url : string)
    (w0 : World) (fuel : nat) (d : Z) :
  0 ≤ d ≤ maxWait →
  (∀ k, clock rt k = startTime rt + d + 500 * Z.of_nat k) →
  (∀ k, (k ≤ 121)%nat →
     ∃ s, get sessionId (worldAt rt w0 k) = Some s
          ∧ status s ≠ Completed ∧ status s ≠ Error) →
  (122 ≤ fuel)%nat →
  ∃ k, (k ≤ 121)%nat
    ∧ waitLoop fuel rt i sessionId url 0%nat w0
      = Some (k, respond i (Timeout url),
              deleteSession sessionId (worldAt rt w0 k))
    ∧ maxWait < clock rt k - startTime rt ≤ maxWait + 500
    ∧ (∀ j, (j < k)%nat → passAt rt i sessionId url w0 j = Suspend)
    ∧ (d = 0 → k = 121%nat ∧ clock rt k - startTime rt = maxWait + 500)
    ∧ (0 < d < 500 → k = 120%nat ∧ clock rt k - startTime rt = maxWait + d).
Proof.
  intros Hd Hclock Hs Hf.
  destruct (waitLoop_times_out rt i sessionId url w0 121 fuel)
    as (k & Hk & Hl & Hgt & Hle).
  { intros j Hj. destruct (Hs j Hj) as (s & ? & ? & ?). exists s. auto. }
  { rewrite Hclock. unfold maxWait in *. lia. }
  { lia. }
  exists k. split; [done |]. split; [done |].
  assert (Hprev : (0 < k)%nat ∧ clock rt (k - 1) - startTime rt ≤ maxWait).
  { destruct k as [|k].
    - rewrite Hclock in Hgt. unfold maxWait in *. lia.
    - split; [lia |]. apply Hle. lia. }
  destruct Hprev as [Hpos Hprev].
  rewrite Hclock in Hgt, Hprev. rewrite !Hclock. unfold maxWait in *.
  split; [lia |]. split.
  - intros j Hj.
    apply (waitLoop_sound _ _ _ _ _ fuel 0%nat) in Hl as (_ & _ & Hsus).
    apply Hsus. lia.
  - split; intros; lia.
Qed.

Lemma worldAt_quiet (w : World) (k : nat) : worldAt quiet w k = w.
Proof. induction k as [|k IH]; [done | exact IH]. Qed.

Lemma worldAt_quietFrom (d : Z) (w : World) (k : nat) :
  worldAt (quietFrom d) w k = w.
Proof. induction k as [|k IH]; [done | exact IH]. Qed.

Lemma timeout_elapsed_above_ceiling_witness :
  ∃ k, waitLoop 122 (quietFrom 7) None "abc" (recordUrl (quietFrom 7)) 0%nat
                (created (quietFrom 7) emptyWorld)
       = Some (k, respond None (Timeout (recordUrl (quietFrom 7))),
               deleteSession "abc"
                 (worldAt (quietFrom 7) (created (quietFrom 7) emptyWorld) k))
    ∧ maxWait < clock (quietFrom 7) k - startTime (quietFrom 7) ≤ maxWait + 500
    ∧ k = 120%nat
    ∧ clock (quietFrom 7) k - startTime (quietFrom 7) = maxWait + 7.
Proof.
  destruct (timeout_elapsed_above_ceiling_at_most_one_interval (quietFrom 7)
              None "abc" (recordUrl (quietFrom 7))
              (created (quietFrom 7) emptyWorld) 122 7)
    as (k & _ & Hl & Hb & _ & _ & H7).
  - unfold maxWait. lia.
  - intros k. simpl. lia.
  - intros k _. rewrite worldAt_quietFrom. eexists. split; [reflexivity |].
    split; discriminate.
  - lia.
  - exists k. destruct H7 as [Hk He]; [lia |].
    split; [exact Hl | split; [exact Hb | split; [exact Hk | exact He]]].
Defined.

(** C3 as stated fails.  Nothing is uploaded, the session stays waiting
    at every pass and is never deleted, every suspension lasts 500 ms:
    the timeout result is returned 60500 ms after the loop started, which
    is outside [60000, 60500). *)
Lemma timeout_elapsed_not_below_ceiling_plus_interval :
  ∃ k w',
    waitLoop 200 quiet None "abc" (recordUrl quiet) 0%nat
             (created quiet emptyWorld)
      = Some (k, respond None (Timeout (recordUrl quiet)), w')
    ∧ (∀ j, status <$> get "abc" (worldAt quiet (created quiet emptyWorld) j)
            = Some Waiting)
    ∧ clock quiet k - startTime quiet = 60500
    ∧ ¬ (maxWait ≤ clock quiet k - startTime quiet < maxWait + 500).
Proof.
  exists 121%nat. eexists. split; [vm_compute; reflexivity |].
  split; [intros j; by rewrite worldAt_quiet |].
  split; [reflexivity |]. vm_compute. intros [_ H]. discriminate H.
Qed.

(** C7.  In a [voice-to-text] invocation during which nothing is
    uploaded (every pass up to [N] finds the session still waiting), the
    loop returns once a pass reads a time beyond the ceiling, and the
    text it returns is the timeout message followed by the recording
    link of the session created at the start of the invocation: the
    base URL ([https://<deployment id>.deno.dev] when a deployment
    identifier is set and not empty, [http://localhost:8000]
    otherwise), then [/record/], then the identifier the session was
    created and stored under. *)
Theorem timeout_text_contains_record_link
    (fuel N : nat) (rt : Runtime) (request : MCPRequest) (w : World) :
  method request = "tools/call" →
  toolName request = Some "voice-to-text" →
  (∀ k, (k ≤ N)%nat →
     status <$> get (uuid rt) (worldAt rt (created rt w) k) = Some Waiting) →
  clock rt N - startTime rt > maxWait →
  (N < fuel)%nat →
  ∃ base message w',
    handleMCPRequest fuel rt request w
      = Some (mkResponse "2.0" (req_id request)
                (Some (ToolResult [mkContent "text" message])) None, w')
    ∧ base = match deploymentId rt with
             | Some d => if String.eqb d "" then "http://localhost:8000"
                         else "https://" +:+ d +:+ ".deno.dev"
             | None => "http://localhost:8000"
             end
    ∧ message = "⏰ 录音超时（60秒）。请打开此链接录音："
                +:+ base +:+ "/record/" +:+ uuid rt
    ∧ contains (base +:+ "/record/" +:+ uuid rt) message
    ∧ id <$> get (uuid rt) (created rt w) = Some (uuid rt).
Proof.
  intros Hm Hn Hw HN Hf.
  destruct (waitLoop_times_out rt (req_id request) (uuid rt) (recordUrl rt)
              (created rt w) N fuel) as (k & Hk & Hl & _); [| done | done |].
  { intros j Hj. specialize (Hw j Hj).
    destruct (get (uuid rt) (worldAt rt (created rt w) j)) as [s|]; [|done].
    injection Hw as Hw. exists s. rewrite Hw. auto. }
  change (worldAt rt (created rt w) 0) with (created rt w) in Hl.
  assert (recordUrl rt
          = match deploymentId rt with
            | Some d => if String.eqb d "" then "http://localhost:8000"
                        else "https://" +:+ d +:+ ".deno.dev"
            | None => "http://localhost:8000"
            end +:+ "/record/" +:+ uuid rt) as Hurl.
  { unfold recordUrl, baseUrl, truthy, interpolate.
    destruct (deploymentId rt) as [d|]; [| done].
    by destruct (String.eqb d ""). }
  eexists _, _, _. split; [| split; [reflexivity | split; [| split]]].
  - unfold handleMCPRequest. rewrite Hm. simpl.
    rewrite bool_decide_eq_true_2 by done. rewrite Hl. reflexivity.
  - unfold respond, verdictText. by rewrite Hurl.
  - unfold verdictText. rewrite Hurl. apply contains_suffix.
  - unfold get, created, setNew; simpl. rewrite lookup_insert_eq. simpl.
    by rewrite fn_lookup_insert.
Qed.

Lemma timeout_text_contains_record_link_witness :
  ∃ base message w',
    handleMCPRequest 122 quiet voiceToText emptyWorld
      = Some (mkResponse "2.0" (Some (IdNumber 1))
                (Some (ToolResult [mkContent "text" message])) None, w')
    ∧ base = "http://localhost:8000"
    ∧ message = "⏰ 录音超时（60秒）。请打开此链接录音："
                +:+ base +:+ "/record/" +:+ "abc"
    ∧ contains (base +:+ "/record/" +:+ "abc") message
    ∧ id <$> get "abc" (created quiet emptyWorld) = Some "abc".
Proof.
  apply (timeout_text_contains_record_link 122 121 quiet voiceToText emptyWorld).
  - reflexivity.
  - reflexivity.
  - intros k _. by rewrite worldAt_quiet.
  - reflexivity.
  - lia.
Defined.

(** *** The process: status *)

Lemma status_uploadCatch (r0 r : ref) (t : Thrown) (w : World) :
  status (heap (uploadCatch r0 t w).2 r)
  = if decide (r0 = r) then Error else status (heap w r).
Proof.
  unfold uploadCatch. cbn [snd]. case_decide as Hr.
  - subst. by rewrite !heap_update_eq.
  - by rewrite !heap_update_ne.
Qed.

Lemma status_uploadFinish (r0 r : ref) (o : Outcome (option string)) (w : World) :
  status (heap (uploadFinish r0 o w).2 r)
  = if decide (r0 = r)
    then match o with Returns _ => Completed | Throws _ => Error end
    else status (heap w r).
Proof.
  destruct o as [text | t]; [| apply status_uploadCatch].
  unfold uploadFinish. cbn [snd]. case_decide as Hr.
  - subst. by rewrite !heap_update_eq.
  - by rewrite !heap_update_ne.
Qed.

Lemma forward_or_terminal (before after : Status) :
  after = Completed ∨ after = Error →
  (stage before < stage after)%nat
  ∨ ((before = Completed ∨ before = Error)
     ∧ (after = Completed ∨ after = Error)).
Proof. intros [-> | ->]; destruct before; simpl; auto; left; lia. Qed.

Lemma iteration_heap (i : option RequestId) (sessionId url : string)
    (start now : Z) (w w' : World) (r : MCPResponse) :
  iteration i sessionId url start now w = Return r w' →
  heap w' = heap w ∧ next w' = next w
  ∧ (w' = w ∨ w' = deleteSession sessionId w).
Proof.
  unfold iteration. intros H.
  repeat case_match; try discriminate H;
    apply Return_inj in H as [_ <-]; auto.
Qed.

(** C1, as the code has it.  In every step of the process and for every
    session object there is, the status stays as it is or moves to a
    later stage of [waiting → processing → {completed, error}], with
    two exceptions, both in the upload branch, which writes the status
    without looking at it.  The first stretch of an upload sets the
    status of the session it finds to [processing] whatever it was,
    also when it was [completed] or [error].  The last stretch of an
    upload (the [catch] block after a failed body read, or the code
    after [transcribeAudio]) sets [completed] or [error] whatever the
    status was, so where uploads for one session overlap it can turn
    [completed] into [error] or [error] into [completed].  The sweep,
    the creation of a session and a pass of the wait loop write to no
    session object that exists. *)
Theorem status_moves_forward_except_where_an_upload_writes_it
    (e : Event) (s s' : System) (r : ref) :
  step e s = Some s' →
  (r < next (world s))%nat →
  (status (heap (world s') r) = status (heap (world s) r)
   ∨ (stage (status (heap (world s) r))
      < stage (status (heap (world s') r)))%nat
   ∨ (∃ sessionId, e = UploadBegins sessionId
        ∧ sessions (world s) !! sessionId = Some r
        ∧ status (heap (world s') r) = Processing)
   ∨ (((∃ t, e = UploadReads r (Throws t))
       ∨ (∃ a key reply, e = UploadTranscribed r a key reply))
      ∧ (status (heap (world s) r) = Completed
         ∨ status (heap (world s) r) = Error)
      ∧ (status (heap (world s') r) = Completed
         ∨ status (heap (world s') r) = Error)))
  ∧ (match e with
     | ToolCallBegins _ _ _ | LoopPasses _ _ _ _ _ =>
       heap (world s') r = heap (world s) r
     | _ => True
     end).
Proof.
  destruct e as [k ts tc | i k url start now | k | r0 read | r0 a key reply];
    cbn [step]; intros H Hr.
  - injection H as <-. simpl.
    rewrite fn_lookup_insert_ne by lia. split; [by left | done].
  - destruct (iteration _ _ _ _ _ _) as [r1 w1|] eqn:Hi; injection H as <-.
    + apply iteration_heap in Hi as (Hh & _). simpl. rewrite Hh.
      split; [by left | done].
    + split; [by left | done].
  - split; [| done]. unfold uploadBegin in H.
    destruct (sessions (world s) !! k) as [r0|] eqn:Hk; injection H as <-.
    + simpl. destruct (decide (r0 = r)) as [-> | Hne].
      * right; right; left. exists k. by rewrite fn_lookup_alter.
      * left. by rewrite fn_lookup_alter_ne.
    + by left.
  - split; [| done].
    destruct (takeOut _ _) as [rest|]; [| discriminate H].
    cbn [mbind option_bind] in H.
    destruct read as [a | t]; injection H as <-; cbn [world].
    + left. destruct (decide (r0 = r)) as [-> | Hne].
      * by rewrite heap_update_eq.
      * by rewrite heap_update_ne.
    + change (heap (update r0 _ (update r0 _ (world s))))
        with (heap (uploadCatch r0 t (world s)).2).
      rewrite status_uploadCatch. case_decide as Heq; [subst r0 | by left].
      destruct (forward_or_terminal (status (heap (world s) r)) Error)
        as [Hlt | [Hb Ha]]; [by right | by right; left |].
      right; right; right. split; [left; by exists t | done].
  - split; [| done].
    destruct (takeOut _ _) as [rest|]; [| discriminate H].
    cbn [mbind option_bind] in H. injection H as <-. cbn [world].
    rewrite status_uploadFinish. case_decide as Heq; [subst r0 | by left].
    destruct (forward_or_terminal (status (heap (world s) r))
                match transcribeAudio key a reply with
                | Returns _ => Completed
                | Throws _ => Error
                end) as [Hlt | [Hb Ha]];
      [by destruct (transcribeAudio key a reply); auto | by right; left |].
    right; right; right. split; [right; by exists a, key, reply | done].
Qed.

Lemma status_moves_forward_except_where_an_upload_writes_it_witness :
  ∃ s s', run firstUpload initial = Some s
    ∧ step (UploadBegins "abc") s = Some s'
    ∧ (status (heap (world s') 0%nat) = status (heap (world s) 0%nat)
       ∨ (stage (status (heap (world s) 0%nat))
          < stage (status (heap (world s') 0%nat)))%nat
       ∨ (∃ sessionId, UploadBegins "abc" = UploadBegins sessionId
            ∧ sessions (world s) !! sessionId = Some 0%nat
            ∧ status (heap (world s') 0%nat) = Processing)
       ∨ (((∃ t, UploadBegins "abc" = UploadReads 0 (Throws t))
           ∨ (∃ a key reply, UploadBegins "abc" = UploadTranscribed 0 a key reply))
          ∧ (status (heap (world s) 0%nat) = Completed
             ∨ status (heap (world s) 0%nat) = Error)
          ∧ (status (heap (world s') 0%nat) = Completed
             ∨ status (heap (world s') 0%nat) = Error))).
Proof.
  eexists _, _. split; [reflexivity |]. split; [reflexivity |].
  eapply proj1.
  eapply (status_moves_forward_except_where_an_upload_writes_it
            (UploadBegins "abc"));
    [reflexivity | simpl; lia].
Defined.

(** The second exception happens: of two overlapping uploads the first
    is transcribed and completes the session, then the second fails and
    turns [completed] into [error], with the session still in the
    store. *)
Lemma overlapping_upload_turns_completed_into_error :
  ∃ s s', run overlappingUploads initial = Some s
    ∧ step (UploadTranscribed 0 [] (Some "sk-1")
              (Response 500 (Returns "overloaded") (NotJson ""))) s = Some s'
    ∧ status <$> get "abc" (world s) = Some Completed
    ∧ status <$> get "abc" (world s') = Some Error.
Proof.
  eexists _, _. split; [reflexivity |]. split; [reflexivity |].
  split; reflexivity.
Qed.

(** C1 as stated fails: a recording is uploaded and transcribed, the
    session is completed; a second upload for the same identifier begins
    before the loop's next pass and sets the status back to
    processing. *)
Lemma later_upload_sets_completed_back_to_processing :
  ∃ s s', run firstUpload initial = Some s
    ∧ step (UploadBegins "abc") s = Some s'
    ∧ status <$> get "abc" (world s) = Some Completed
    ∧ status <$> get "abc" (world s') = Some Processing
    ∧ (stage Processing < stage Completed)%nat.
Proof.
  eexists _, _. split; [reflexivity |]. split; [reflexivity |].
  split; [reflexivity |]. split; [reflexivity |]. simpl. lia.
Qed.

(** *** The process: result and error *)

Lemma count_cons (r x : nat) (l : list nat) :
  count r (x :: l) = ((if decide (x = r) then 1 else 0) + count r l)%nat.
Proof. unfold count. rewrite filter_cons. by case_decide. Qed.

Lemma takeOut_count (r0 : nat) (st : Stage) (l rest : list (nat * Stage)) :
  takeOut (r0, st) l = Some rest →
  ∀ r, count r l.*1 = ((if decide (r0 = r) then 1 else 0) + count r rest.*1)%nat.
Proof.
  revert rest. induction l as [|[r1 st1] l IH]; intros rest; [done |].
  cbn [takeOut]. case_decide as Heq.
  - intros [= <-] r. injection Heq as <- _.
    by rewrite fmap_cons, count_cons.
  - destruct (takeOut (r0, st) l) as [rest'|]; [| done].
    intros [= <-] r. rewrite !fmap_cons, !count_cons. cbn [fst].
    rewrite (IH rest' eq_refl r). repeat case_decide; lia.
Qed.

Lemma result_update (r0 r : nat) (f : Session → Session) (w : World) :
  (r0 = r → result (f (heap w r)) = result (heap w r)) →
  result (heap (update r0 f w) r) = result (heap w r).
Proof.
  intros Hf. destruct (decide (r0 = r)) as [-> | Hne].
  - rewrite heap_update_eq. by apply Hf.
  - by rewrite heap_update_ne.
Qed.

Lemma error_update (r0 r : nat) (f : Session → Session) (w : World) :
  (r0 = r → error (f (heap w r)) = error (heap w r)) →
  error (heap (update r0 f w) r) = error (heap w r).
Proof.
  intros Hf. destruct (decide (r0 = r)) as [-> | Hne].
  - rewrite heap_update_eq. by apply Hf.
  - by rewrite heap_update_ne.
Qed.

Lemma result_uploadCatch (r0 r : nat) (t : Thrown) (w : World) :
  result (heap (uploadCatch r0 t w).2 r) = result (heap w r).
Proof.
  unfold uploadCatch. cbn [snd]. by rewrite !result_update.
Qed.

Lemma error_uploadCatch_ne (r0 r : nat) (t : Thrown) (w : World) :
  r0 ≠ r → error (heap (uploadCatch r0 t w).2 r) = error (heap w r).
Proof.
  intros. unfold uploadCatch. cbn [snd]. by rewrite !error_update.
Qed.

Lemma error_uploadFinish_returns (r0 r : nat) (text : option string) (w : World) :
  error (heap (uploadFinish r0 (Returns text) w).2 r) = error (heap w r).
Proof. unfold uploadFinish. cbn [snd]. by rewrite !error_update. Qed.

Lemma result_uploadFinish_ne (r0 r : nat) (o : Outcome (option string))
    (w : World) :
  r0 ≠ r → result (heap (uploadFinish r0 o w).2 r) = result (heap w r).
Proof.
  intros. destruct o; [| apply result_uploadCatch].
  unfold uploadFinish. cbn [snd]. by rewrite !result_update.
Qed.

Lemma error_uploadFinish_ne (r0 r : nat) (o : Outcome (option string))
    (w : World) :
  r0 ≠ r → error (heap (uploadFinish r0 o w).2 r) = error (heap w r).
Proof.
  intros. destruct o; [apply error_uploadFinish_returns |].
  by apply error_uploadCatch_ne.
Qed.

(** What a step may do to one session object, as far as [result],
    [error] and the upload counts go: leave the fields alone (an upload
    for it may begin), or end one upload for it and write at most one of
    the two fields, or create it with both fields absent. *)
Lemma Invariant_preserved (s s' : System) :
  Invariant s →
  (∀ r, (next (world s') ≤ r)%nat → uploadsBegun r s' = 0%nat) →
  (∀ k r, sessions (world s') !! k = Some r → (r < next (world s'))%nat) →
  (∀ r,
     (result (heap (world s') r) = result (heap (world s) r)
      ∧ error (heap (world s') r) = error (heap (world s) r)
      ∧ (uploadsBegun r s' + uploadsInFlight r s
         = uploadsBegun r s + uploadsInFlight r s')%nat
      ∧ (uploadsBegun r s ≤ uploadsBegun r s')%nat)
     ∨ (uploadsInFlight r s = S (uploadsInFlight r s')
        ∧ uploadsBegun r s' = uploadsBegun r s
        ∧ (result (heap (world s') r) = result (heap (world s) r)
           ∨ error (heap (world s') r) = error (heap (world s) r)))
     ∨ (result (heap (world s') r) = None ∧ error (heap (world s') r) = None
        ∧ uploadsBegun r s' = uploadsBegun r s
        ∧ uploadsInFlight r s' = uploadsInFlight r s
        ∧ (next (world s) ≤ r)%nat)) →
  Invariant s'.
Proof.
  intros [I1 I2 I3 I4 I5] Hunused Halloc Hstep.
  split; [| | | exact Hunused | exact Halloc]; intros r;
    specialize (I1 r); specialize (I2 r); specialize (I3 r);
    specialize (I4 r);
    destruct (Hstep r) as [(Hr & He & Hc & Hb) | [(Hf & Hb & Hw)
                          | (Hr & He & Hb & Hf & Hn)]].
  - lia.
  - lia.
  - lia.
  - intros H. rewrite Hr, He. apply I2. lia.
  - intros H. lia.
  - done.
  - intros H. rewrite Hr, He. apply I3. lia.
  - intros H. destruct I2 as [Hr He]; [lia |].
    destruct Hw as [-> | ->]; auto.
  - auto.
Qed.

Lemma Invariant_initial : Invariant initial.
Proof. split; intros; try done; simpl; auto. Qed.

Local Arguments uploadCatch : simpl never.
Local Arguments uploadFinish : simpl never.
Local Arguments update : simpl never.

Lemma Invariant_step (e : Event) (s s' : System) :
  step e s = Some s' → Invariant s → Invariant s'.
Proof.
  intros H I. pose proof I as [I1 I2 I3 I4 I5].
  destruct e as [k ts tc | i k url start now | k | r0 read | r0 a key reply];
    cbn [step] in H.
  - (* a tool call sweeps and creates *)
    injection H as <-. apply (Invariant_preserved s); [done | | |].
    + intros r Hr. apply I4. simpl in Hr. lia.
    + intros k' r. simpl. rewrite lookup_insert. case_decide.
      * intros [= <-]. lia.
      * intros [Hk _]%map_lookup_filter_Some. apply I5 in Hk. lia.
    + intros r. destruct (decide (next (world s) = r)) as [<- | Hne].
      * right; right. simpl. rewrite fn_lookup_insert. by repeat split.
      * left. simpl. rewrite fn_lookup_insert_ne by done. by repeat split.
  - (* a pass of some wait loop *)
    destruct (iteration _ _ _ _ _ _) as [r1 w1|] eqn:Hi; injection H as <-;
      [| done].
    apply iteration_heap in Hi as (Hh & Hn & Hw).
    apply (Invariant_preserved s); [done | | |]; simpl.
    + intros r. rewrite Hn. apply I4.
    + intros k' r. rewrite Hn. destruct Hw as [-> | ->]; [apply I5 |].
      simpl. intros [_ Hk]%lookup_delete_Some. by apply I5 in Hk.
    + intros r. left. rewrite Hh. by repeat split.
  - (* an upload begins *)
    unfold uploadBegin in H.
    destruct (sessions (world s) !! k) as [r0|] eqn:Hk; injection H as <-;
      [| done].
    apply (Invariant_preserved s); [done | | |].
    + intros r Hr. unfold uploadsBegun. simpl. rewrite count_cons.
      apply I5 in Hk. simpl in Hr. rewrite decide_False by lia. by apply I4.
    + apply I5.
    + intros r. left. unfold uploadsBegun, uploadsInFlight.
      cbn [world inflight begun].
      rewrite count_cons, result_update, error_update by done.
      change (count r ((r0, Reading) :: inflight s).*1)
        with (count r (r0 :: (inflight s).*1)).
      rewrite count_cons. repeat split; lia.
  - (* an upload has read its body *)
    destruct (takeOut _ _) as [rest|] eqn:Ht; [| discriminate H].
    cbn [mbind option_bind] in H. pose proof (takeOut_count _ _ _ _ Ht) as Hc.
    destruct read as [a | t]; injection H as <-.
    + apply (Invariant_preserved s); [done | apply I4 | apply I5 |].
      intros r. left. unfold uploadsBegun, uploadsInFlight.
      cbn [world inflight begun].
      rewrite result_update, error_update by done.
      change (count r ((r0, Transcribing a) :: rest).*1)
        with (count r (r0 :: rest.*1)).
      rewrite count_cons, (Hc r). repeat split; lia.
    + change (Invariant (mkSystem (uploadCatch r0 t (world s)).2 rest (begun s))).
      apply (Invariant_preserved s);
        [done | intros r Hr; exact (I4 r Hr)
         | intros k' r Hk; exact (I5 k' r Hk) |].
      intros r. unfold uploadsBegun, uploadsInFlight. cbn [world inflight begun].
      rewrite result_uploadCatch, (Hc r).
      destruct (decide (r0 = r)) as [-> | Hne].
      * right; left.
        split; [lia | split; [done | by left]].
      * left. rewrite error_uploadCatch_ne by done. repeat split; lia.
  - (* an upload has its transcription *)
    destruct (takeOut _ _) as [rest|] eqn:Ht; [| discriminate H].
    cbn [mbind option_bind] in H. pose proof (takeOut_count _ _ _ _ Ht) as Hc.
    injection H as <-.
    change (Invariant (mkSystem
              (uploadFinish r0 (transcribeAudio key a reply) (world s)).2
              rest (begun s))).
    apply (Invariant_preserved s);
      [done
       | intros r Hr; destruct (transcribeAudio key a reply); exact (I4 r Hr)
       | intros k' r Hk; destruct (transcribeAudio key a reply);
         exact (I5 k' r Hk) |].
    intros r. unfold uploadsBegun, uploadsInFlight. cbn [world inflight begun].
    rewrite (Hc r). destruct (decide (r0 = r)) as [-> | Hne].
    + right; left.
      split; [lia | split; [done |]].
      destruct (transcribeAudio key a reply) as [text | t].
      * right. apply error_uploadFinish_returns.
      * left. apply result_uploadCatch.
    + left. rewrite result_uploadFinish_ne, error_uploadFinish_ne by done.
      repeat split; lia.
Qed.

Lemma Invariant_run (es : list Event) (s s' : System) :
  run es s = Some s' → Invariant s → Invariant s'.
Proof.
  revert s. induction es as [|e es IH]; intros s; simpl.
  - by intros [= <-].
  - destruct (step e s) as [s1|] eqn:He; [| done]. simpl.
    intros H I. apply (IH s1 H). by apply (Invariant_step e s).
Qed.

(** C2, as the code has it.  In every state the process reaches, a
    session object (in the store or deleted from it) for which at most
    one upload has run to its end, in particular one for which at most
    one upload was ever begun, has [result] absent or [error] absent, so
    the two are not both non-empty.  An upload that ends writes one of the two fields and
    leaves the other as it finds it. *)
Theorem result_and_error_exclusive_after_one_upload
    (es : list Event) (s : System) (r : ref) :
  run es initial = Some s →
  (uploadsBegun r s ≤ uploadsInFlight r s + 1)%nat →
  (result (heap (world s) r) = None ∨ error (heap (world s) r) = None)
  ∧ ¬ (truthy (result (heap (world s) r)) = true
       ∧ truthy (error (heap (world s) r)) = true).
Proof.
  intros Hrun Hone.
  assert (result (heap (world s) r) = None ∨ error (heap (world s) r) = None)
    as Hn.
  { apply (inv_one_ended s); [| done].
    apply (Invariant_run es initial); [done | apply Invariant_initial]. }
  split; [done |]. intros [Hr He].
  destruct Hn as [Hn | Hn]; rewrite Hn in *; discriminate.
Qed.

Lemma result_and_error_exclusive_after_one_upload_witness :
  ∃ s, run firstUpload initial = Some s
    ∧ sessions (world s) !! "abc" = Some 0%nat
    ∧ (uploadsBegun 0 s ≤ uploadsInFlight 0 s + 1)%nat
    ∧ (result (heap (world s) 0%nat) = None ∨ error (heap (world s) 0%nat) = None)
    ∧ ¬ (truthy (result (heap (world s) 0%nat)) = true
         ∧ truthy (error (heap (world s) 0%nat)) = true).
Proof.
  eexists. split; [reflexivity |]. split; [reflexivity |].
  split; [vm_compute; lia |].
  apply (result_and_error_exclusive_after_one_upload firstUpload _ 0%nat);
    [reflexivity | vm_compute; lia].
Defined.

(** C2 as stated fails: the first upload is transcribed and sets
    [result]; a second upload for the same identifier begins before the
    loop's next pass, so that pass finds the session processing and
    suspends; the second upload fails and sets [error].  The session is
    in the store with both fields non-empty. *)
Lemma two_uploads_leave_result_and_error :
  ∃ s x, run (firstUpload ++ secondUpload) initial = Some s
    ∧ get "abc" (world s) = Some x
    ∧ result x = Some "hello world"
    ∧ error x = Some "SiliconFlow API error: 500 - overloaded"
    ∧ truthy (result x) = true ∧ truthy (error x) = true.
Proof.
  eexists _, _. split; [reflexivity |]. split; [reflexivity |].
  repeat split.
Qed.

(** ** More of the code *)

(** *** The sweep, again *)

(** X1.  A sweep at a later time absorbs a sweep at an earlier time:
    running [cleanupOldSessions] at [t1] and then at [t2 ≥ t1] leaves
    the same state as running it once at [t2].  In particular a second
    sweep at the same time changes nothing. *)
Theorem later_sweep_absorbs_earlier (t1 t2 : Z) (w : World) :
  t1 ≤ t2 →
  cleanupOldSessions t2 (cleanupOldSessions t1 w) = cleanupOldSessions t2 w.
Proof.
  intros Ht. unfold cleanupOldSessions, sweep; simpl. f_equal.
  apply map_eq. intros k. rewrite !map_lookup_filter.
  destruct (sessions w !! k) as [r|]; simpl; [| done].
  destruct (decide (expired (5 * 60 * 1000) t1 (heap w r))) as [H1 | H1].
  - rewrite (option_guard_False (¬ expired _ t1 _)) by tauto. simpl.
    rewrite option_guard_False; [done |].
    unfold expired in *. simpl in *. intros H2. apply H2. lia.
  - by rewrite (option_guard_True (¬ expired _ t1 _)) by done.
Qed.

Lemma later_sweep_absorbs_earlier_witness :
  cleanupOldSessions 400000 (cleanupOldSessions 2000 (created quiet emptyWorld))
  = cleanupOldSessions 400000 (created quiet emptyWorld).
Proof.
  apply (later_sweep_absorbs_earlier 2000 400000 (created quiet emptyWorld)).
  lia.
Defined.

(** *** Reachable states *)

Lemma distinctObjects_step (e : Event) (s s' : System) :
  step e s = Some s' → Invariant s →
  distinctObjects (world s) → distinctObjects (world s').
Proof.
  intros H I D. pose proof (inv_allocated s I) as I5.
  destruct e as [k ts tc | i k url start now | k | r0 read | r0 a key reply];
    cbn [step] in H.
  - injection H as <-. intros k1 k2 r. simpl.
    rewrite !lookup_insert. intros H1 H2.
    repeat case_decide; simplify_eq; try done;
      repeat match goal with
             | Hf : filter _ _ !! _ = Some _ |- _ =>
               apply map_lookup_filter_Some in Hf as [Hf _]
             end;
      try (by eapply D);
      exfalso;
      match goal with
      | Hf : sessions _ !! _ = Some _ |- _ => apply I5 in Hf; lia
      end.
  - destruct (iteration _ _ _ _ _ _) as [r1 w1|] eqn:Hi; injection H as <-;
      [| done].
    apply iteration_heap in Hi as (_ & _ & [-> | ->]); [done |].
    intros k1 k2 r. simpl.
    intros [_ H1]%lookup_delete_Some [_ H2]%lookup_delete_Some.
    by apply (D k1 k2 r).
  - unfold uploadBegin in H.
    destruct (sessions (world s) !! k) as [r0|]; by injection H as <-.
  - destruct (takeOut _ _) as [rest|]; [| discriminate H].
    cbn [mbind option_bind] in H. destruct read; by injection H as <-.
  - destruct (takeOut _ _) as [rest|]; [| discriminate H].
    cbn [mbind option_bind] in H. injection H as <-.
    by destruct (transcribeAudio key a reply).
Qed.

Lemma distinctObjects_run (es : list Event) (s s' : System) :
  run es s = Some s' → Invariant s →
  distinctObjects (world s) → distinctObjects (world s').
Proof.
  revert s. induction es as [|e es IH]; intros s; simpl.
  - by intros [= <-].
  - destruct (step e s) as [s1|] eqn:He; [| done]. simpl.
    intros H I D. apply (IH s1 H).
    + by apply (Invariant_step e s).
    + by apply (distinctObjects_step e s).
Qed.

Lemma reachable_distinctObjects (es : list Event) (s : System) :
  run es initial = Some s → distinctObjects (world s).
Proof.
  intros H. apply (distinctObjects_run es initial); [done | |].
  - apply Invariant_initial.
  - intros k1 k2 r. simpl. by rewrite lookup_empty.
Qed.

Lemma reachable_allocated (es : list Event) (s : System) (k : string) (r : nat) :
  run es initial = Some s →
  sessions (world s) !! k = Some r → (r < next (world s))%nat.
Proof.
  intros H. apply inv_allocated.
  apply (Invariant_run es initial); [done | apply Invariant_initial].
Qed.

(** X2.  In every state the process reaches, the first part of a
    [voice-to-text] call (sweep, then create) leaves the new session in
    the store, waiting, created at the time read, with no audio, no
    result and no error; and every other identifier keeps its session
    unchanged if that session is at most five minutes old at the sweep,
    and has none otherwise. *)
Theorem tool_call_creates_waiting_session_and_keeps_young_ones
    (es : list Event) (s : System) (rt : Runtime) :
  run es initial = Some s →
  get (uuid rt) (created rt (world s))
    = Some (mkSession (uuid rt) (createTime rt) Waiting None None None)
  ∧ ∀ k, k ≠ uuid rt →
      get k (created rt (world s))
      = match get k (world s) with
        | Some x =>
          if decide (sweepTime rt - createdAt x > 300000) then None else Some x
        | None => None
        end.
Proof.
  intros Hrun. split.
  - unfold get, created, setNew; simpl. rewrite lookup_insert_eq. simpl.
    by rewrite fn_lookup_insert.
  - intros k Hk. unfold get, created, setNew. cbn [sessions heap].
    rewrite lookup_insert_ne by done.
    change (sessions (cleanupOldSessions (sweepTime rt) (world s)))
      with (sessions (sweep (5 * 60 * 1000) (sweepTime rt) (world s))).
    rewrite sweep_lookup.
    destruct (sessions (world s) !! k) as [r|] eqn:Hr; [| done].
    cbn [fmap option_fmap option_map].
    destruct (decide (expired (5 * 60 * 1000) (sweepTime rt)
                              (heap (world s) r))) as [He | He].
    + by rewrite decide_True.
    + rewrite decide_False by done.
      apply (reachable_allocated es s k r Hrun) in Hr.
      change (heap (cleanupOldSessions (sweepTime rt) (world s)))
        with (heap (world s)).
      change (next (cleanupOldSessions (sweepTime rt) (world s)))
        with (next (world s)).
      cbn [fmap option_fmap option_map]. f_equal.
      rewrite fn_lookup_insert_ne; [done | lia].
Qed.

Lemma tool_call_creates_waiting_session_witness :
  ∃ s, run firstUpload initial = Some s
    ∧ get "xyz" (created (mkRuntime 2000 "xyz" 2000 None 2000 (λ _, 2000)
                            (λ _ w, w)) (world s))
      = Some (mkSession "xyz" 2000 Waiting None None None)
    ∧ get "abc" (created (mkRuntime 2000 "xyz" 2000 None 2000 (λ _, 2000)
                            (λ _ w, w)) (world s))
      = get "abc" (world s).
Proof.
  eexists. split; [reflexivity |].
  destruct (tool_call_creates_waiting_session_and_keeps_young_ones
              firstUpload _
              (mkRuntime 2000 "xyz" 2000 None 2000 (λ _, 2000) (λ _ w, w))
              eq_refl) as [H1 H2].
  split; [exact H1 |]. rewrite (H2 "abc") by discriminate. reflexivity.
Defined.

(** *** The protocol handler, again *)

Lemma deleteSession_absent (k : string) (w : World) :
  get k w = None → deleteSession k w = w.
Proof.
  intros H%get_None. destruct w as [h n m]. unfold deleteSession; simpl in *.
  f_equal. by apply delete_id.
Qed.

Lemma iteration_Return_shape (i : option RequestId) (sessionId url : string)
    (start now : Z) (w w' : World) (r : MCPResponse) :
  iteration i sessionId url start now w = Return r w' →
  w' = deleteSession sessionId w ∧ ∃ v, r = respond i v.
Proof.
  unfold iteration. intros H.
  destruct (get sessionId w) as [s|] eqn:Hg.
  - repeat case_match; try discriminate H;
      apply Return_inj in H as [<- <-]; eauto.
  - apply Return_inj in H as [<- <-]. rewrite deleteSession_absent by done.
    eauto.
Qed.

Lemma iteration_Suspend_inv (i : option RequestId) (sessionId url : string)
    (start now : Z) (w : World) :
  iteration i sessionId url start now w = Suspend →
  ∃ s, get sessionId w = Some s ∧ status s ≠ Error
       ∧ (status s ≠ Completed ∨ truthy (result s) = false)
       ∧ now - start ≤ maxWait.
Proof.
  unfold iteration. intros H.
  destruct (get sessionId w) as [s|]; [| discriminate H]. exists s.
  destruct (bool_decide (status s = Completed)) eqn:Hc;
    [destruct (truthy (result s)) eqn:Ht|]; cbn [andb] in H;
    try discriminate H;
    repeat case_bool_decide; try discriminate H;
    repeat split; auto; try lia.
Qed.

Lemma iteration_Timeout_inv (i : option RequestId) (sessionId url u : string)
    (start now : Z) (w w' : World) :
  iteration i sessionId url start now w = Return (respond i (Timeout u)) w' →
  u = url ∧ now - start > maxWait.
Proof.
  unfold iteration. intros H.
  destruct (get sessionId w) as [s|].
  - destruct (bool_decide (status s = Completed) && truthy (result s)).
    { apply Return_inj in H as [H _]. by apply respond_inj in H as [_ ?]. }
    destruct (bool_decide (status s = Error)).
    { apply Return_inj in H as [H _]. by apply respond_inj in H as [_ ?]. }
    case_bool_decide; [| discriminate H].
    apply Return_inj in H as [H _]. apply respond_inj in H as [_ [= ->]].
    done.
  - apply Return_inj in H as [H _]. by apply respond_inj in H as [_ ?].
Qed.

(** X3.  When a [voice-to-text] invocation returns, at some pass [k], the
    state it leaves is the state that pass found with the entry of its
    own session deleted and nothing else changed: no session object is
    written, no other entry is touched, and the store has no entry for
    the session identifier, whichever of the four results is returned.
    Every earlier pass found the session in the store. *)
Theorem invocation_deletes_its_session_and_nothing_else
    (fuel : nat) (rt : Runtime) (request : MCPRequest) (w w' : World)
    (r : MCPResponse) :
  method request = "tools/call" →
  toolName request = Some "voice-to-text" →
  handleMCPRequest fuel rt request w = Some (r, w') →
  get (uuid rt) w' = None
  ∧ ∃ k, w' = deleteSession (uuid rt) (worldAt rt (created rt w) k)
         ∧ ∀ j, (j < k)%nat →
             is_Some (get (uuid rt) (worldAt rt (created rt w) j)).
Proof.
  unfold handleMCPRequest. intros Hm Hn H. rewrite Hm in H. simpl in H.
  rewrite bool_decide_eq_true_2 in H by done.
  destruct (waitLoop fuel rt (req_id request) (uuid rt) (recordUrl rt) 0%nat
              (created rt w)) as [[[k r1] w1]|] eqn:Hl; [| discriminate H].
  simpl in H. injection H as -> ->.
  apply (waitLoop_sound _ _ _ _ _ fuel 0%nat) in Hl as (_ & Hp & Hs).
  apply iteration_Return_shape in Hp as [-> _].
  split; [apply get_deleteSession |]. exists k. split; [done |].
  intros j Hj. specialize (Hs j (conj (Nat.le_0_l j) Hj)).
  apply iteration_Suspend_inv in Hs as (s & -> & _). by exists s.
Qed.

Lemma invocation_deletes_its_session_witness :
  ∃ r w', handleMCPRequest 122 quiet voiceToText emptyWorld = Some (r, w')
    ∧ get "abc" w' = None
    ∧ ∃ k, w' = deleteSession "abc" (worldAt quiet (created quiet emptyWorld) k)
           ∧ ∀ j, (j < k)%nat →
               is_Some (get "abc" (worldAt quiet (created quiet emptyWorld) j)).
Proof.
  eexists _, _. split; [vm_compute; reflexivity |].
  eapply (invocation_deletes_its_session_and_nothing_else 122 quiet voiceToText
            emptyWorld); [reflexivity | reflexivity | vm_compute; reflexivity].
Defined.

(** X4.  Every response of [handleMCPRequest] is a [jsonrpc] 2.0
    envelope that carries the [id] of the request (absent when the
    request has none) and either a [result] or an [error], never both
    and never neither. *)
Theorem every_response_echoes_the_request_id
    (fuel : nat) (rt : Runtime) (request : MCPRequest) (w w' : World)
    (r : MCPResponse) :
  handleMCPRequest fuel rt request w = Some (r, w') →
  jsonrpc r = "2.0" ∧ resp_id r = req_id request
  ∧ ((is_Some (resp_result r) ∧ resp_error r = None)
     ∨ (resp_result r = None ∧ is_Some (resp_error r))).
Proof.
  unfold handleMCPRequest. intros H.
  destruct (String.eqb (method request) "initialize");
    [injection H as <- _; simpl; eauto 10 |].
  destruct (String.eqb (method request) "tools/list");
    [injection H as <- _; simpl; eauto 10 |].
  destruct (String.eqb (method request) "tools/call");
    [| injection H as <- _; simpl; eauto 10].
  case_bool_decide; [| injection H as <- _; simpl; eauto 10].
  destruct (waitLoop fuel rt (req_id request) (uuid rt) (recordUrl rt) 0%nat
              (created rt w)) as [[[k r1] w1]|] eqn:Hl; [| discriminate H].
  simpl in H. injection H as -> ->.
  apply (waitLoop_sound _ _ _ _ _ fuel 0%nat) in Hl as (_ & Hp & _).
  apply iteration_Return_shape in Hp as [_ [v ->]]. simpl. eauto 10.
Qed.

Lemma every_response_echoes_the_request_id_witness :
  ∃ r w', handleMCPRequest 5 (withUpload helloWorld) voiceToText emptyWorld
            = Some (r, w')
    ∧ jsonrpc r = "2.0" ∧ resp_id r = Some (IdNumber 1)
    ∧ ((is_Some (resp_result r) ∧ resp_error r = None)
       ∨ (resp_result r = None ∧ is_Some (resp_error r))).
Proof.
  eexists _, _. split; [vm_compute; reflexivity |].
  eapply (every_response_echoes_the_request_id 5 (withUpload helloWorld)
            voiceToText emptyWorld).
  vm_compute; reflexivity.
Defined.

(** X5.  Only a [tools/call] for [voice-to-text] sweeps, creates or
    deletes: every other request ([initialize], [tools/list], another
    tool, another method) is answered at once, with an answer that does
    not depend on the fuel, and leaves the process state as it was. *)
Theorem only_voice_to_text_touches_the_store
    (rt : Runtime) (request : MCPRequest) (w : World) :
  ¬ (method request = "tools/call" ∧ toolName request = Some "voice-to-text") →
  ∃ r, ∀ fuel, handleMCPRequest fuel rt request w = Some (r, w).
Proof.
  intros Hn. unfold handleMCPRequest.
  destruct (String.eqb (method request) "initialize"); [by eexists |].
  destruct (String.eqb (method request) "tools/list"); [by eexists |].
  destruct (String.eqb (method request) "tools/call") eqn:Hc; [| by eexists].
  apply String.eqb_eq in Hc.
  rewrite bool_decide_eq_false_2 by tauto. by eexists.
Qed.

Lemma only_voice_to_text_touches_the_store_witness :
  ∃ r, ∀ fuel,
    handleMCPRequest fuel quiet (mkRequest None "tools/list" None)
      (created quiet emptyWorld)
    = Some (r, created quiet emptyWorld).
Proof.
  apply (only_voice_to_text_touches_the_store quiet
           (mkRequest None "tools/list" None) (created quiet emptyWorld)).
  intros [H _]. discriminate H.
Defined.

(** X6.  The loop keeps waiting only while the session is in the store
    and the clock reading is within the ceiling: every pass before the
    one that returns read at most 60000 ms since the start and found
    the session; and a timeout result is only returned by a pass that
    read more than 60000 ms, with the recording link the loop was
    given. *)
Theorem loop_waits_only_within_the_ceiling
    (fuel k : nat) (rt : Runtime) (i : option RequestId)
    (sessionId url : string) (w0 w' : World) (r : MCPResponse) :
  waitLoop fuel rt i sessionId url 0%nat w0 = Some (k, r, w') →
  (∀ j, (j < k)%nat →
     clock rt j - startTime rt ≤ maxWait
     ∧ is_Some (get sessionId (worldAt rt w0 j)))
  ∧ (∀ u, r = respond i (Timeout u) →
       u = url ∧ clock rt k - startTime rt > maxWait).
Proof.
  intros Hl.
  apply (waitLoop_sound _ _ _ _ _ fuel 0%nat) in Hl as (_ & Hp & Hs).
  split.
  - intros j Hj. specialize (Hs j (conj (Nat.le_0_l j) Hj)).
    apply iteration_Suspend_inv in Hs as (s & -> & _ & _ & Hc).
    split; [done | by exists s].
  - intros u ->. by apply iteration_Timeout_inv in Hp.
Qed.

Lemma loop_waits_only_within_the_ceiling_witness :
  ∃ k w',
    waitLoop 122 quiet None "abc" (recordUrl quiet) 0%nat
      (created quiet emptyWorld)
    = Some (k, respond None (Timeout (recordUrl quiet)), w')
    ∧ (∀ j, (j < k)%nat →
         clock quiet j - startTime quiet ≤ maxWait
         ∧ is_Some (get "abc" (worldAt quiet (created quiet emptyWorld) j)))
    ∧ (∀ u, respond None (Timeout (recordUrl quiet)) = respond None (Timeout u) →
         u = recordUrl quiet ∧ clock quiet k - startTime quiet > maxWait).
Proof.
  eexists _, _. split; [vm_compute; reflexivity |].
  eapply (loop_waits_only_within_the_ceiling 122 _ quiet None "abc"
            (recordUrl quiet) (created quiet emptyWorld)).
  vm_compute; reflexivity.
Defined.

(** *** The upload endpoint, again *)

(** X7.  [transcribeAudio] returns (rather than throws) exactly when the
    credential is a non-empty string, the upstream answered with a
    status between 200 and 299, and the body parsed to a value other
    than [null]; what it returns is then that value's [text]. *)
Theorem transcribe_returns_iff
    (apiKey : option string) (audioData : list Byte.byte) (reply : Reply)
    (text : option string) :
  transcribeAudio apiKey audioData reply = Returns text
  ↔ truthy apiKey = true
    ∧ ∃ code errorText,
        reply = Response code errorText (JsonValue text)
        ∧ (200 ≤ code ≤ 299)%N.
Proof.
  unfold transcribeAudio, ok. split.
  - destruct (truthy apiKey); [| discriminate]. simpl.
    destruct reply as [msg | code errorText json]; [discriminate |].
    case_bool_decide as Hok; simpl.
    + destruct json; try discriminate. intros [= ->]. eauto.
    + by destruct errorText.
  - intros (-> & code & errorText & -> & Hok). simpl.
    by rewrite bool_decide_eq_true_2.
Qed.

Lemma handlerUpload_outcome
    (sessionId : string) (read : Outcome (list Byte.byte))
    (apiKey : option string) (reply : Reply) (w : World) (s : Session) :
  get sessionId w = Some s →
  ∃ resp w' s',
    handlerUpload sessionId read apiKey reply w = (resp, w')
    ∧ get sessionId w' = Some s'
    ∧ id s' = id s ∧ createdAt s' = createdAt s
    ∧ ((httpStatus resp = 200 ∧ status s' = Completed
        ∧ body resp = SuccessBody (result s') ∧ error s' = error s)
       ∨ (httpStatus resp = 500 ∧ status s' = Error
          ∧ (∃ msg, body resp = ErrorBody msg ∧ error s' = Some msg)
          ∧ result s' = result s)).
Proof.
  intros (r & Hr & ->)%get_Some.
  unfold handlerUpload, uploadBegin. rewrite Hr.
  destruct read as [a | t];
    [destruct (transcribeAudio apiKey a reply) as [text | t] |];
    eexists _, _, _; (split; [reflexivity |]);
    unfold get; simpl; rewrite Hr; simpl; rewrite !fn_lookup_alter;
    (split; [reflexivity |]); simpl; eauto 12.
Qed.

Lemma uploadFinish_object (session : ref)
    (transcribed : Outcome (option string)) (w : World) :
  sessions (uploadFinish session transcribed w).2 = sessions w
  ∧ heap (uploadFinish session transcribed w).2 session
    = match transcribed with
      | Returns transcript =>
        set_status Completed (set_result transcript (heap w session))
      | Throws t =>
        set_error match t with
                  | ThrownError m => m
                  | ThrownOther => "Unknown error"
                  end
                  (set_status Error (heap w session))
      end.
Proof.
  destruct transcribed as [transcript | t];
    unfold uploadFinish, uploadCatch; cbn [snd];
    (split; [reflexivity |]); by rewrite !heap_update_eq.
Qed.

(** X8.  However the other handlers interleave with an upload, its last
    stretch (the code after [transcribeAudio], or the [catch] block,
    which is [uploadFinish] at a thrown value) leaves the session
    object it holds in a terminal state that matches its answer:
    either the answer is 200 with the transcript, and the object is
    completed with that transcript as [result] and [error] as before;
    or the answer is 500 with a message, and the object is in error
    with that message as [error] and [result] as before.  [id] and
    [createdAt] are kept and the store's entries are not touched, so a
    session that is still in the store is found there in that state;
    the stretch writes to the object also when the session has been
    deleted meanwhile.  In particular, when nothing else runs during
    the awaits of an upload for a session that is in the store, the
    upload leaves that session in the store in such a state. *)
Theorem upload_end_leaves_a_terminal_state
    (session : ref) (transcribed : Outcome (option string)) (w : World) :
  (∃ resp w' x,
     uploadFinish session transcribed w = (resp, w')
     ∧ heap w' session = x
     ∧ sessions w' = sessions w
     ∧ id x = id (heap w session)
     ∧ createdAt x = createdAt (heap w session)
     ∧ ((httpStatus resp = 200 ∧ status x = Completed
         ∧ body resp = SuccessBody (result x)
         ∧ error x = error (heap w session))
        ∨ (httpStatus resp = 500 ∧ status x = Error
           ∧ (∃ msg, body resp = ErrorBody msg ∧ error x = Some msg)
           ∧ result x = result (heap w session)))
     ∧ ∀ sessionId, sessions w !! sessionId = Some session →
                    get sessionId w' = Some x)
  ∧ ∀ sessionId read apiKey reply s,
      get sessionId w = Some s →
      ∃ resp w' s',
        handlerUpload sessionId read apiKey reply w = (resp, w')
        ∧ get sessionId w' = Some s'
        ∧ id s' = id s ∧ createdAt s' = createdAt s
        ∧ ((httpStatus resp = 200 ∧ status s' = Completed
            ∧ body resp = SuccessBody (result s') ∧ error s' = error s)
           ∨ (httpStatus resp = 500 ∧ status s' = Error
              ∧ (∃ msg, body resp = ErrorBody msg ∧ error s' = Some msg)
              ∧ result s' = result s)).
Proof.
  split; [| intros; by apply handlerUpload_outcome].
  destruct (uploadFinish_object session transcribed w) as [Hs Hh].
  exists (uploadFinish session transcribed w).1,
         (uploadFinish session transcribed w).2,
         (heap (uploadFinish session transcribed w).2 session).
  split; [by destruct (uploadFinish session transcribed w) |].
  split; [done |]. split; [done |]. rewrite Hh.
  split; [by destruct transcribed |]. split; [by destruct transcribed |].
  split.
  - destruct transcribed as [transcript | t]; [left | right];
      unfold uploadFinish, uploadCatch; cbn [fst]; simpl; eauto 10.
  - intros sessionId Hk. unfold get. by rewrite Hs, Hk, <- Hh.
Qed.

Lemma upload_end_leaves_a_terminal_state_witness :
  ∃ resp w' s',
    handlerUpload "abc" (Returns []) None helloWorld (created quiet emptyWorld)
      = (resp, w')
    ∧ get "abc" w' = Some s'
    ∧ id s' = "abc" ∧ createdAt s' = 1000
    ∧ ((httpStatus resp = 200 ∧ status s' = Completed
        ∧ body resp = SuccessBody (result s') ∧ error s' = None)
       ∨ (httpStatus resp = 500 ∧ status s' = Error
          ∧ (∃ msg, body resp = ErrorBody msg ∧ error s' = Some msg)
          ∧ result s' = None)).
Proof.
  apply (proj2 (upload_end_leaves_a_terminal_state 0%nat (Returns None)
                  (created quiet emptyWorld))
           "abc" (Returns []) None helloWorld
           (mkSession "abc" 1000 Waiting None None None)).
  reflexivity.
Defined.

(** X9.  If the session is still in the store when an upload for it
    ends, then the pass of the wait loop that comes next, with no
    stretch of another handler in between, agrees with what the upload
    told the browser, whatever was interleaved with the upload before
    its end.  If the answer carried a non-empty transcript, the pass
    returns the success result with that transcript; if it carried an
    error message, the pass returns the failure result with that
    message (with a stock text when the message is empty); if it
    carried an empty or no transcript, the pass keeps waiting, or times
    out.  In the first two cases, and on timeout, the session is
    deleted.  (When the loop has deleted the session during the upload,
    or another upload for it begins before the next pass, the two do
    not agree.) *)
Theorem upload_end_and_next_pass_agree
    (sessionId : string) (session : ref)
    (transcribed : Outcome (option string)) (w : World)
    (i : option RequestId) (url : string) (start now : Z) :
  sessions w !! sessionId = Some session →
  iteration i sessionId url start now (uploadFinish session transcribed w).2
  = match body (uploadFinish session transcribed w).1 with
    | SuccessBody transcript =>
      if truthy transcript
      then Return (respond i (Success (interpolate transcript)))
                  (deleteSession sessionId
                     (uploadFinish session transcribed w).2)
      else if bool_decide (now - start > maxWait)
      then Return (respond i (Timeout url))
                  (deleteSession sessionId
                     (uploadFinish session transcribed w).2)
      else Suspend
    | ErrorBody msg =>
      Return (respond i (Failure (orElse (Some msg) "未知错误")))
             (deleteSession sessionId (uploadFinish session transcribed w).2)
    end.
Proof.
  intros Hk.
  destruct (uploadFinish_object session transcribed w) as [Hs Hh].
  assert (get sessionId (uploadFinish session transcribed w).2
          = Some (heap (uploadFinish session transcribed w).2 session)) as Hg
    by (unfold get; by rewrite Hs, Hk).
  destruct transcribed as [transcript | t].
  - change (body (uploadFinish session (Returns transcript) w).1)
      with (SuccessBody transcript).
    cbn match.
    assert (status (heap (uploadFinish session (Returns transcript) w).2
                         session) = Completed) as Hst by (by rewrite Hh).
    assert (result (heap (uploadFinish session (Returns transcript) w).2
                         session) = transcript) as Hr by (by rewrite Hh).
    destruct (truthy transcript) eqn:Ht.
    + pose proof (iteration_success i sessionId url start now _ _ Hg Hst) as H.
      rewrite Hr in H. by apply H.
    + apply (iteration_pending _ _ _ _ _ _ _ Hg); [by rewrite Hst |].
      right. by rewrite Hr.
  - change (body (uploadFinish session (Throws t) w).1)
      with (ErrorBody match t with
                      | ThrownError m => m
                      | ThrownOther => "Unknown error"
                      end).
    cbn match.
    assert (status (heap (uploadFinish session (Throws t) w).2 session)
            = Error) as Hst by (by rewrite Hh).
    assert (error (heap (uploadFinish session (Throws t) w).2 session)
            = Some match t with
                   | ThrownError m => m
                   | ThrownOther => "Unknown error"
                   end) as He by (by rewrite Hh).
    pose proof (iteration_error i sessionId url start now _ _ Hg Hst) as H.
    by rewrite He in H.
Qed.

Lemma upload_end_and_next_pass_agree_witness :
  iteration None "abc" (recordUrl quiet) 1000 1500
            (uploadFinish 0
               (Throws (ThrownError "SiliconFlow API error: 503 - busy"))
               (created quiet emptyWorld)).2
  = Return (respond None (Failure "SiliconFlow API error: 503 - busy"))
           (deleteSession "abc"
              (uploadFinish 0
                 (Throws (ThrownError "SiliconFlow API error: 503 - busy"))
                 (created quiet emptyWorld)).2).
Proof.
  apply (upload_end_and_next_pass_agree "abc" 0%nat
           (Throws (ThrownError "SiliconFlow API error: 503 - busy"))
           (created quiet emptyWorld) None (recordUrl quiet) 1000 1500).
  reflexivity.
Defined.

Lemma handlerUpload_frame (sessionId : string) (read : Outcome (list Byte.byte))
    (apiKey : option string) (reply : Reply) (w : World) :
  sessions (handlerUpload sessionId read apiKey reply w).2 = sessions w
  ∧ next (handlerUpload sessionId read apiKey reply w).2 = next w
  ∧ ∀ r, sessions w !! sessionId ≠ Some r →
         heap (handlerUpload sessionId read apiKey reply w).2 r = heap w r.
Proof.
  unfold handlerUpload, uploadBegin.
  destruct (sessions w !! sessionId) as [r0|]; [| done].
  destruct read as [a | t];
    [destruct (transcribeAudio apiKey a reply) as [text | t] |];
    (split; [reflexivity |]); (split; [reflexivity |]);
    intros r Hr; assert (r0 ≠ r) by congruence;
    unfold uploadFinish, uploadCatch; cbn [snd];
    by rewrite !heap_update_ne.
Qed.

(** X10.  In every state the process reaches, an upload writes to the
    session it was sent for and to nothing else: the store has the same
    identifiers afterwards, and the session of every other identifier is
    exactly as it was. *)
Theorem upload_touches_no_other_session
    (es : list Event) (s : System) (sessionId k : string)
    (read : Outcome (list Byte.byte)) (apiKey : option string) (reply : Reply) :
  run es initial = Some s →
  k ≠ sessionId →
  get k (handlerUpload sessionId read apiKey reply (world s)).2
    = get k (world s)
  ∧ sessions (handlerUpload sessionId read apiKey reply (world s)).2
    = sessions (world s).
Proof.
  intros Hrun Hk.
  destruct (handlerUpload_frame sessionId read apiKey reply (world s))
    as (Hs & _ & Hh).
  split; [| done]. unfold get. rewrite Hs.
  destruct (sessions (world s) !! k) as [r|] eqn:Hr; [| done]. simpl.
  f_equal. apply Hh. intros Hr'.
  by apply Hk, (reachable_distinctObjects es s Hrun k sessionId r).
Qed.

Lemma upload_touches_no_other_session_witness :
  ∃ s, run (firstUpload ++ [ToolCallBegins "xyz" 1200 1200]) initial = Some s
    ∧ get "abc" (handlerUpload "xyz" (Returns []) (Some "sk-1") noText
                   (world s)).2
      = get "abc" (world s)
    ∧ sessions (handlerUpload "xyz" (Returns []) (Some "sk-1") noText
                  (world s)).2
      = sessions (world s).
Proof.
  eexists. split; [reflexivity |].
  apply (upload_touches_no_other_session
           (firstUpload ++ [ToolCallBegins "xyz" 1200 1200]) _ "xyz" "abc");
    [reflexivity | discriminate].
Defined.

Lemma heap_uploadFinish_ne (r0 r : nat) (o : Outcome (option string))
    (w : World) :
  r0 ≠ r → heap (uploadFinish r0 o w).2 r = heap w r.
Proof.
  intros. destruct o; unfold uploadFinish, uploadCatch; cbn [snd];
    by rewrite !heap_update_ne.
Qed.

(** X11.  An upload that outlives its session is lost without notice.
    In every state the process reaches, if the session an upload is
    transcribing for is deleted from the store meanwhile (as the wait
    loop does when it times out), the last stretch of the upload still
    answers 200 with the transcript, but writes only to the detached
    object: no session in the store changes, and the identifier stays
    absent. *)
Theorem late_upload_is_lost
    (es : list Event) (s : System) (sessionId : string) (r : ref)
    (transcribed : Outcome (option string)) :
  run es initial = Some s →
  sessions (world s) !! sessionId = Some r →
  (∀ k, get k (uploadFinish r transcribed
                  (deleteSession sessionId (world s))).2
        = get k (deleteSession sessionId (world s)))
  ∧ get sessionId (uploadFinish r transcribed
                     (deleteSession sessionId (world s))).2 = None
  ∧ ∀ transcript,
      (uploadFinish r (Returns transcript)
         (deleteSession sessionId (world s))).1
      = mkHttp 200 (SuccessBody transcript).
Proof.
  intros Hrun Hr.
  assert (Hall : ∀ k,
    get k (uploadFinish r transcribed (deleteSession sessionId (world s))).2
    = get k (deleteSession sessionId (world s))).
  { intros k. unfold get.
    assert (sessions (uploadFinish r transcribed
                        (deleteSession sessionId (world s))).2
            = sessions (deleteSession sessionId (world s))) as ->
      by (by destruct transcribed).
    destruct (sessions (deleteSession sessionId (world s)) !! k)
      as [r'|] eqn:Hk; [| done].
    cbn [fmap option_fmap option_map]. f_equal.
    apply heap_uploadFinish_ne. intros <-.
    simpl in Hk. apply lookup_delete_Some in Hk as [Hne Hk].
    by apply Hne, (reachable_distinctObjects es s Hrun sessionId k r). }
  split; [exact Hall |]. split; [| done].
  rewrite Hall. apply get_deleteSession.
Qed.

Lemma late_upload_is_lost_witness :
  ∃ s, run [ToolCallBegins "abc" 1000 1000; UploadBegins "abc";
            UploadReads 0 (Returns [])] initial = Some s
    ∧ sessions (world s) !! "abc" = Some 0%nat
    ∧ (∀ k, get k (uploadFinish 0 (Returns (Some "hello world"))
                     (deleteSession "abc" (world s))).2
            = get k (deleteSession "abc" (world s)))
    ∧ get "abc" (uploadFinish 0 (Returns (Some "hello world"))
                   (deleteSession "abc" (world s))).2 = None
    ∧ ∀ transcript,
        (uploadFinish 0 (Returns transcript)
           (deleteSession "abc" (world s))).1
        = mkHttp 200 (SuccessBody transcript).
Proof.
  eexists. split; [reflexivity |]. split; [reflexivity |].
  apply (late_upload_is_lost
           [ToolCallBegins "abc" 1000 1000; UploadBegins "abc";
            UploadReads 0 (Returns [])] _ "abc" 0%nat
           (Returns (Some "hello world"))); reflexivity.
Defined.

(** *** The request handler *)

Lemma prefix_append (p x : string) : String.prefix p (p +:+ x) = true.
Proof.
  induction p as [|c p IH]; [by destruct x |].
  change (String c p +:+ x) with (String c (p +:+ x)). simpl.
  destruct (Ascii.ascii_dec c c); [exact IH | done].
Qed.

Lemma dropChars_append (p x : string) : dropChars (String.length p) (p +:+ x) = x.
Proof. induction p as [|c p IH]; [done | exact IH]. Qed.

Lemma replaceFirst_unfold (pattern s : string) :
  replaceFirst pattern s
  = if String.prefix pattern s then dropChars (String.length pattern) s
    else match s with
         | EmptyString => EmptyString
         | String c s' => String c (replaceFirst pattern s')
         end.
Proof. by destruct s. Qed.

(** Taking a prefix out with [replace]: for a string that starts with
    [pattern], [replace(pattern, "")] returns what follows the prefix,
    also when [pattern] occurs again later. *)
Lemma replaceFirst_takes_the_prefix_out (pattern rest : string) :
  startsWith (pattern +:+ rest) pattern = true
  ∧ replaceFirst pattern (pattern +:+ rest) = rest.
Proof.
  unfold startsWith. split; [apply prefix_append |].
  rewrite replaceFirst_unfold, prefix_append. apply dropChars_append.
Qed.

(** X12.  The handler takes as session identifier everything that
    follows the route prefix in the pathname the URL parser gives it,
    also when that rest has slashes or the prefix in it again.  For a
    parsed pathname [/record/] followed by [x], the answer is the
    recording page built for exactly [x], whether or not such a session
    exists and whatever the method (preflight apart); a POST with
    parsed pathname [/api/upload/] followed by [x] is the upload for
    exactly [x]; for a parsed pathname [/api/status/] followed by [x]
    the answer reads exactly the session stored under [x]: 404 when
    there is none, its status, result and error otherwise.  The page and
    the status request leave the state as it was.  (What the URL parser
    makes of the characters of a request's URL is not part of this.) *)
Theorem route_prefix_is_taken_off_the_parsed_pathname
    (fuel : nat) (rt : Runtime) (apiKey : option string) (reply : Reply)
    (m sessionId : string) (jb : Outcome MCPRequest)
    (rb : Outcome (list Byte.byte)) (w : World) :
  m ≠ "OPTIONS" →
  handler fuel rt apiKey reply
          (mkHttpRequest m ("/record/" +:+ sessionId) jb rb) w
    = Some (mkServed 200
              (("Content-Type", "text/html; charset=utf-8") :: corsHeaders)
              (Page sessionId), w)
  ∧ handler fuel rt apiKey reply
            (mkHttpRequest "POST" ("/api/upload/" +:+ sessionId) jb rb) w
    = Some (mkServed (httpStatus (handlerUpload sessionId rb apiKey reply w).1)
              jsonHeaders
              (UploadJson (body (handlerUpload sessionId rb apiKey reply w).1)),
            (handlerUpload sessionId rb apiKey reply w).2)
  ∧ handler fuel rt apiKey reply
            (mkHttpRequest m ("/api/status/" +:+ sessionId) jb rb) w
    = Some (match get sessionId w with
            | None =>
              mkServed 404 jsonHeaders (UploadJson (ErrorBody "Session not found"))
            | Some x =>
              mkServed 200 jsonHeaders
                       (StatusJson (status x) (result x) (error x))
            end, w).
Proof.
  intros Hm%String.eqb_neq. unfold handler. cbn [httpMethod pathname rawBody].
  rewrite Hm.
  pose proof (replaceFirst_takes_the_prefix_out "/record/" sessionId) as [R1 R2].
  pose proof (replaceFirst_takes_the_prefix_out "/api/upload/" sessionId)
    as [U1 U2].
  pose proof (replaceFirst_takes_the_prefix_out "/api/status/" sessionId)
    as [S1 S2].
  split; [| split].
  - replace (String.eqb ("/record/" +:+ sessionId) "/mcp") with false
      by reflexivity.
    cbn [andb]. by rewrite R1, R2.
  - replace (String.eqb "POST" "OPTIONS") with false by reflexivity.
    replace (String.eqb ("/api/upload/" +:+ sessionId) "/mcp") with false
      by reflexivity.
    replace (startsWith ("/api/upload/" +:+ sessionId) "/record/") with false
      by reflexivity.
    cbn [andb]. rewrite U1, U2.
    replace (String.eqb "POST" "POST") with true by reflexivity. cbn [andb].
    by destruct (handlerUpload sessionId rb apiKey reply w).
  - replace (String.eqb ("/api/status/" +:+ sessionId) "/mcp") with false
      by reflexivity.
    replace (startsWith ("/api/status/" +:+ sessionId) "/record/") with false
      by reflexivity.
    replace (startsWith ("/api/status/" +:+ sessionId) "/api/upload/")
      with false by reflexivity.
    cbn [andb]. rewrite S1, S2. by destruct (get sessionId w).
Qed.

Lemma route_prefix_is_taken_off_witness :
  handler 0 quiet None noText
          (mkHttpRequest "GET" ("/record/" +:+ "abc") (Throws ThrownOther)
                         (Throws ThrownOther)) emptyWorld
  = Some (mkServed 200
            (("Content-Type", "text/html; charset=utf-8") :: corsHeaders)
            (Page "abc"), emptyWorld).
Proof.
  eapply proj1.
  apply (route_prefix_is_taken_off_the_parsed_pathname 0 quiet None noText "GET"
           "abc" (Throws ThrownOther) (Throws ThrownOther) emptyWorld).
  discriminate.
Defined.

(** X13.  Every response the handler gives, on every route and with
    every status, carries the three CORS headers. *)
Theorem every_response_carries_the_cors_headers
    (fuel : nat) (rt : Runtime) (apiKey : option string) (reply : Reply)
    (req : Request) (w w' : World) (r : Served) :
  handler fuel rt apiKey reply req w = Some (r, w') →
  ∀ h, h ∈ corsHeaders → h ∈ servedHeaders r.
Proof.
  unfold handler. intros H h Hh.
  destruct (String.eqb (httpMethod req) "OPTIONS");
    [by injection H as <- _ |].
  destruct (String.eqb (pathname req) "/mcp"
            && String.eqb (httpMethod req) "POST").
  { destruct (jsonBody req) as [request | t].
    - destruct (handleMCPRequest fuel rt request w) as [[response w1]|];
        [| discriminate H].
      simpl in H. injection H as <- _. by apply list_elem_of_further.
    - injection H as <- _. by apply list_elem_of_further. }
  destruct (startsWith (pathname req) "/record/");
    [injection H as <- _; by apply list_elem_of_further |].
  destruct (startsWith (pathname req) "/api/upload/"
            && String.eqb (httpMethod req) "POST").
  { destruct (handlerUpload _ _ _ _ _) as [r1 w1].
    injection H as <- _. by apply list_elem_of_further. }
  destruct (startsWith (pathname req) "/api/status/").
  { destruct (get _ w); injection H as <- _; by apply list_elem_of_further. }
  destruct (String.eqb (pathname req) "/"); injection H as <- _;
    [by apply list_elem_of_further | done].
Qed.

Lemma every_response_carries_the_cors_headers_witness :
  ("Access-Control-Allow-Origin", "*")
  ∈ servedHeaders
      (mkServed 404 jsonHeaders (UploadJson (ErrorBody "Session not found"))).
Proof.
  apply (every_response_carries_the_cors_headers 0 quiet None noText
           (mkHttpRequest "POST" "/api/upload/nobody" (Throws ThrownOther)
                          (Returns [])) emptyWorld emptyWorld);
    [reflexivity | apply list_elem_of_here].
Defined.

(** X14.  Only a POST changes anything: a request with any other method
    is answered at once, with an answer that does not depend on the
    fuel, and leaves the process state as it was. *)
Theorem only_post_changes_the_state
    (rt : Runtime) (apiKey : option string) (reply : Reply)
    (req : Request) (w : World) :
  httpMethod req ≠ "POST" →
  ∃ r, ∀ fuel, handler fuel rt apiKey reply req w = Some (r, w).
Proof.
  intros Hm%String.eqb_neq. unfold handler. rewrite Hm, !andb_false_r.
  repeat case_match; by eexists.
Qed.

Lemma only_post_changes_the_state_witness :
  ∃ r, ∀ fuel,
    handler fuel quiet None noText
            (mkHttpRequest "GET" "/api/status/abc" (Throws ThrownOther)
                           (Throws ThrownOther)) (created quiet emptyWorld)
    = Some (r, created quiet emptyWorld).
Proof.
  apply (only_post_changes_the_state quiet None noText
           (mkHttpRequest "GET" "/api/status/abc" (Throws ThrownOther)
                          (Throws ThrownOther)) (created quiet emptyWorld)).
  discriminate.
Defined.

(** X15.  The two endpoints that write answer only to POST: any other
    method (preflight apart) on [/mcp], or on a path that starts with
    [/api/upload/], gets the plain 404 [Not Found], and neither the
    protocol handler nor the upload runs. *)
Theorem writing_endpoints_answer_only_to_post
    (fuel : nat) (rt : Runtime) (apiKey : option string) (reply : Reply)
    (req : Request) (w : World) :
  httpMethod req ≠ "POST" → httpMethod req ≠ "OPTIONS" →
  pathname req = "/mcp" ∨ startsWith (pathname req) "/api/upload/" = true →
  handler fuel rt apiKey reply req w
    = Some (mkServed 404 corsHeaders (Plain "Not Found"), w).
Proof.
  intros Hp%String.eqb_neq Ho%String.eqb_neq Hpath. unfold handler.
  rewrite Hp, Ho, !andb_false_r.
  assert (startsWith (pathname req) "/record/" = false
          ∧ startsWith (pathname req) "/api/status/" = false
          ∧ String.eqb (pathname req) "/" = false) as (-> & -> & ->); [| done].
  destruct Hpath as [-> | Hu]; [done |].
  unfold startsWith in *.
  destruct (pathname req) as [|c0 [|c1 [|c2 [|c3 [|c4 [|c5 p]]]]]];
    try discriminate Hu; simpl in Hu |- *;
    repeat match type of Hu with
           | (if ?d then _ else _) = true =>
             destruct d; [subst | discriminate Hu]
           end; done.
Qed.

Lemma writing_endpoints_answer_only_to_post_witness :
  handler 0 quiet None noText
          (mkHttpRequest "GET" "/api/upload/abc" (Throws ThrownOther)
                         (Returns [])) (created quiet emptyWorld)
  = Some (mkServed 404 corsHeaders (Plain "Not Found"),
          created quiet emptyWorld).
Proof.
  apply (writing_endpoints_answer_only_to_post 0 quiet None noText
           (mkHttpRequest "GET" "/api/upload/abc" (Throws ThrownOther)
                          (Returns [])) (created quiet emptyWorld));
    [discriminate | discriminate | by right].
Defined.


(** *** The recording page: the WAV encoder *)

Lemma length_leBytes (n : nat) (v : Z) : length (leBytes n v) = n.
Proof. revert v. induction n as [|n IH]; intros v; simpl; [done | by rewrite IH]. Qed.

Lemma leValue_leBytes (n : nat) (v : Z) :
  leValue (leBytes n v) = v mod 2 ^ (8 * Z.of_nat n).
Proof.
  revert v. induction n as [|n IH]; intros v.
  - simpl. by rewrite Z.mod_1_r.
  - cbn [leBytes leValue foldr]. fold (leValue (leBytes n (v / 256))).
    rewrite IH.
    replace (2 ^ (8 * Z.of_nat (S n))) with (256 * 2 ^ (8 * Z.of_nat n)).
    + rewrite Z.rem_mul_r; [done | done |]. apply Z.pow_pos_nonneg; lia.
    + replace (8 * Z.of_nat (S n)) with (8 + 8 * Z.of_nat n) by lia.
      rewrite Z.pow_add_r by lia. done.
Qed.

Lemma setBytes_app (pre old post bs : list Z) :
  length old = length bs →
  setBytes (pre ++ old ++ post) (length pre) bs = Some (pre ++ bs ++ post).
Proof.
  intros Hl. unfold setBytes.
  rewrite !length_app, <- Hl.
  rewrite (proj2 (Nat.leb_le _ _)) by lia.
  rewrite take_app_length. do 2 f_equal.
  rewrite <- (length_app pre old), app_assoc. by rewrite drop_app_length.
Qed.

Lemma setBytes_range (view bs : list Z) (byteOffset : nat) :
  is_Some (setBytes view byteOffset bs)
  ↔ (byteOffset + length bs ≤ length view)%nat.
Proof.
  unfold setBytes. destruct (Nat.leb_spec (byteOffset + length bs) (length view)).
  - split; [done | by eexists].
  - split; [by intros [? ?] | lia].
Qed.

Lemma getBytes_app (pre bs post : list Z) :
  getBytes (pre ++ bs ++ post) (length pre) (length bs) = Some bs.
Proof.
  unfold getBytes. rewrite !length_app.
  rewrite (proj2 (Nat.leb_le _ _)) by lia.
  by rewrite drop_app_length, take_app_length.
Qed.

Section WavProofs.
Context {Sample : Type} (quantize : Sample → Z).

Lemma length_wavPayload (data : list Sample) :
  length (wavPayload quantize data) = (length data * 2)%nat.
Proof.
  unfold wavPayload. induction data as [|s data IH]; [done |].
  cbn [mbind list_bind]. rewrite length_app, length_leBytes.
  fold (data ≫= λ s, leBytes 2 (quantize s)). rewrite IH. simpl. lia.
Qed.

Lemma floatTo16BitPCM_app (data : list Sample) (pre post : list Z) :
  floatTo16BitPCM quantize (pre ++ replicate (length data * 2) 0 ++ post)
                  (length pre) data
  = Some (pre ++ wavPayload quantize data ++ post).
Proof.
  revert pre. induction data as [|s data IH]; intros pre; [done |].
  change (replicate (length (s :: data) * 2) 0)
    with ([0; 0] ++ replicate (length data * 2) 0).
  rewrite <- (app_assoc [0; 0]).
  cbn [floatTo16BitPCM]. unfold setInt16.
  rewrite (setBytes_app pre [0; 0] _ (leBytes 2 (quantize s))) by done.
  cbn [mbind option_bind].
  replace (length pre + 2)%nat
    with (length (pre ++ leBytes 2 (quantize s)))
    by (rewrite length_app, length_leBytes; lia).
  rewrite (app_assoc pre), IH.
  unfold wavPayload. cbn [mbind list_bind].
  by rewrite <- !app_assoc.
Qed.

(** The layout of the file. *)
Lemma convertToWav_layout (sampleRate : Z) (data : list Sample) :
  convertToWav quantize sampleRate data
  = Some (wavHeader sampleRate (length data) ++ wavPayload quantize data).
Proof.
  unfold convertToWav, wavHeader, setUint32, setUint16. cbv zeta.
  remember (leBytes 4 (Z.of_nat _ - 8)) as b1 eqn:E1.
  remember (leBytes 4 sampleRate) as b2 eqn:E2.
  remember (leBytes 4 (sampleRate * 1 * (16 / 8))) as b3 eqn:E3.
  remember (leBytes 4 (Z.of_nat (length data * (16 / 8)))) as b4 eqn:E4.
  assert (length b1 = 4%nat) as L1 by (by rewrite E1, length_leBytes).
  assert (length b2 = 4%nat) as L2 by (by rewrite E2, length_leBytes).
  assert (length b3 = 4%nat) as L3 by (by rewrite E3, length_leBytes).
  assert (length b4 = 4%nat) as L4 by (by rewrite E4, length_leBytes).
  clear E1 E2 E3 E4.
  destruct b1 as [|? [|? [|? [|? [|]]]]]; try discriminate L1.
  destruct b2 as [|? [|? [|? [|? [|]]]]]; try discriminate L2.
  destruct b3 as [|? [|? [|? [|? [|]]]]]; try discriminate L3.
  destruct b4 as [|? [|? [|? [|? [|]]]]]; try discriminate L4.
  clear L1 L2 L3 L4.
  replace (length data * (16 / 8))%nat with (length data * 2)%nat
    by reflexivity.
  pose proof (floatTo16BitPCM_app data
    [82; 73; 70; 70; z; z0; z1; z2; 87; 65; 86; 69; 102; 109; 116; 32;
     16; 0; 0; 0; 1; 0; 1; 0; z3; z4; z5; z6; z7; z8; z9; z10;
     2; 0; 16; 0; 100; 97; 116; 97; z11; z12; z13; z14] []) as H.
  rewrite !app_nil_r in H.
  remember (length data * 2)%nat as m eqn:Em. clear Em.
  cbv -[floatTo16BitPCM wavPayload]. exact H.
Qed.

End WavProofs.

(** X16.  Writing a number with a little-endian [DataView] setter of 1,
    2 or 4 bytes ([setUint8], [setUint16], [setInt16], [setUint32])
    throws exactly when the bytes would go past the end of the buffer.
    Otherwise the buffer keeps its length, the bytes outside the range
    written are as before, and reading the range back little-endian
    gives the number modulo 2^8, 2^16 or 2^32. *)
Theorem little_endian_write_then_read
    (view : list Z) (byteOffset n : nat) (value : Z) :
  (setBytes view byteOffset (leBytes n value) = None
   ↔ (length view < byteOffset + n)%nat)
  ∧ ∀ view', setBytes view byteOffset (leBytes n value) = Some view' →
      length view' = length view
      ∧ leValue <$> getBytes view' byteOffset n
        = Some (value mod 2 ^ (8 * Z.of_nat n))
      ∧ ∀ i, (i < byteOffset ∨ byteOffset + n ≤ i)%nat →
             view' !! i = view !! i.
Proof.
  unfold setBytes. rewrite length_leBytes.
  destruct (Nat.leb_spec (byteOffset + n) (length view)) as [Hle | Hgt].
  - split; [split; [done | lia] |].
    intros view' [= <-].
    assert (length (take byteOffset view) = byteOffset) as Hpre
      by (rewrite length_take; lia).
    split; [| split].
    + rewrite !length_app, Hpre, length_leBytes, length_drop. lia.
    + pose proof (getBytes_app (take byteOffset view) (leBytes n value)
                    (drop (byteOffset + n) view)) as Hg.
      rewrite Hpre, length_leBytes in Hg. rewrite Hg. simpl.
      by rewrite leValue_leBytes.
    + intros i [Hi | Hi].
      * rewrite lookup_app_l by lia. by rewrite lookup_take_lt.
      * rewrite lookup_app_r by lia. rewrite lookup_app_r
          by (rewrite Hpre, length_leBytes; lia).
        rewrite lookup_drop, Hpre, length_leBytes. f_equal. lia.
  - split; [split; [lia | done] | done].
Qed.

Section WavTheorems.
Context {Sample : Type} (quantize : Sample → Z).

(** X17.  [convertToWav] never runs into a [RangeError], whatever the
    sample rate and the samples, and the file it builds is a canonical
    WAV file: 44 bytes of header and two bytes per sample; [RIFF], then
    the file length less 8; [WAVE]; [fmt ], chunk length 16, format 1
    (PCM), one channel, the sample rate, the byte rate (twice the
    sample rate), block align 2, 16 bits per sample; [data], then the
    length of the samples in bytes.  The 32-bit fields hold their
    values modulo 2^32. *)
Theorem convertToWav_writes_a_canonical_header
    (sampleRate : Z) (data : list Sample) :
  ∃ bytes,
    convertToWav quantize sampleRate data = Some bytes
    ∧ length bytes = (44 + 2 * length data)%nat
    ∧ getBytes bytes 0 4 = Some (charCodes "RIFF")
    ∧ getUint32 bytes 4 = Some ((36 + 2 * Z.of_nat (length data)) mod 2 ^ 32)
    ∧ getBytes bytes 8 8 = Some (charCodes "WAVEfmt ")
    ∧ getUint32 bytes 16 = Some 16
    ∧ getUint16 bytes 20 = Some 1
    ∧ getUint16 bytes 22 = Some 1
    ∧ getUint32 bytes 24 = Some (sampleRate mod 2 ^ 32)
    ∧ getUint32 bytes 28 = Some ((2 * sampleRate) mod 2 ^ 32)
    ∧ getUint16 bytes 32 = Some 2
    ∧ getUint16 bytes 34 = Some 16
    ∧ getBytes bytes 36 4 = Some (charCodes "data")
    ∧ getUint32 bytes 40 = Some ((2 * Z.of_nat (length data)) mod 2 ^ 32).
Proof.
  eexists. split; [apply convertToWav_layout |].
  set (p := wavPayload quantize data).
  assert (∀ off v, getBytes (wavHeader sampleRate (length data) ++ p) off 4
                   = Some (leBytes 4 v) →
                   getUint32 (wavHeader sampleRate (length data) ++ p) off
                   = Some (v mod 2 ^ 32)) as H32.
  { intros off v Hg. unfold getUint32. rewrite Hg.
    cbn [fmap option_fmap option_map]. by rewrite leValue_leBytes. }
  split.
  { rewrite length_app. unfold p. rewrite length_wavPayload.
    change (length (wavHeader sampleRate (length data))) with 44%nat. lia. }
  split; [reflexivity |]. split.
  { replace (36 + 2 * Z.of_nat (length data))
      with (Z.of_nat (44 + length data * (16 / 8)) - 8)
      by (change (16 / 8)%nat with 2%nat; lia).
    apply H32. reflexivity. }
  split; [reflexivity |]. split; [reflexivity |].
  split; [reflexivity |]. split; [reflexivity |]. split.
  { apply H32. reflexivity. }
  split.
  { replace (2 * sampleRate) with (sampleRate * 1 * (16 / 8))
      by (change (16 / 8) with 2; lia).
    apply H32. reflexivity. }
  split; [reflexivity |]. split; [reflexivity |]. split; [reflexivity |].
  replace (2 * Z.of_nat (length data))
    with (Z.of_nat (length data * (16 / 8)))
    by (change (16 / 8)%nat with 2%nat; lia).
  apply H32. reflexivity.
Qed.

Lemma wavPayload_middle (d1 d2 : list Sample) (s : Sample) :
  wavPayload quantize (d1 ++ s :: d2)
  = wavPayload quantize d1 ++ leBytes 2 (quantize s) ++ wavPayload quantize d2.
Proof. unfold wavPayload. by rewrite bind_app, bind_cons. Qed.

(** X18.  In the file [convertToWav] builds, the two bytes at offset
    [44 + 2 i] are sample [i]: read little-endian they give the 16-bit
    value made of that sample, modulo 2^16.  The samples follow the
    header in their order and nothing of the header is overwritten. *)
Theorem convertToWav_stores_sample_i_at_44_plus_2i
    (sampleRate : Z) (data : list Sample) (i : nat) (s : Sample) :
  data !! i = Some s →
  ∃ bytes,
    convertToWav quantize sampleRate data = Some bytes
    ∧ getUint16 bytes (44 + 2 * i) = Some (quantize s mod 2 ^ 16)
    ∧ take 44 bytes = wavHeader sampleRate (length data).
Proof.
  intros Hi. eexists. split; [apply convertToWav_layout |]. split.
  - apply list_elem_of_split_length in Hi as (d1 & d2 & -> & ->).
    rewrite wavPayload_middle, (app_assoc (wavHeader _ _)).
    generalize (length (d1 ++ s :: d2)). intros n.
    pose proof (getBytes_app
                  (wavHeader sampleRate n ++ wavPayload quantize d1)
                  (leBytes 2 (quantize s)) (wavPayload quantize d2)) as Hg.
    rewrite length_app, length_wavPayload, length_leBytes in Hg.
    change (length (wavHeader sampleRate n)) with 44%nat in Hg.
    replace (44 + 2 * length d1)%nat with (44 + length d1 * 2)%nat by lia.
    unfold getUint16. rewrite Hg.
    cbn [fmap option_fmap option_map]. by rewrite leValue_leBytes.
  - change 44%nat with (length (wavHeader sampleRate (length data))) at 1.
    apply take_app_length.
Qed.

End WavTheorems.

Lemma convertToWav_stores_sample_witness :
  ∃ bytes,
    convertToWav (λ x : Z, x) 48000 [1; -1; 32767] = Some bytes
    ∧ getUint16 bytes (44 + 2 * 1) = Some (-1 mod 2 ^ 16)
    ∧ take 44 bytes = wavHeader 48000 (length [1; -1; 32767]).
Proof.
  apply (convertToWav_stores_sample_i_at_44_plus_2i (λ x : Z, x) 48000
           [1; -1; 32767] 1 (-1)).
  reflexivity.
Defined.

Lemma little_endian_write_then_read_witness :
  ∃ view', setUint32 (newBuffer 8) 4 (-2) = Some view'
    ∧ length view' = 8%nat
    ∧ getUint32 view' 4 = Some (2 ^ 32 - 2)
    ∧ view' !! 3%nat = Some 0.
Proof.
  eexists. split; [reflexivity |].
  destruct (little_endian_write_then_read (newBuffer 8) 4 4 (-2)) as [_ H].
  destruct (H _ eq_refl) as (Hl & Hv & Ho).
  split; [exact Hl |]. split; [exact Hv |].
  rewrite (Ho 3%nat) by lia. reflexivity.
Defined.

(** *** More on the wait loop and on reachable states *)

(** X19.  The wait loop always returns: whatever the uploads and the
    other invocations do to the session meanwhile, a pass whose clock
    reading is more than 60000 ms after the start never suspends, so
    the loop has returned by the first such pass. *)
Theorem loop_returns_by_the_first_pass_beyond_the_ceiling
    (fuel N : nat) (rt : Runtime) (i : option RequestId)
    (sessionId url : string) (w0 : World) :
  clock rt N - startTime rt > maxWait →
  (N < fuel)%nat →
  ∃ k r w', (k ≤ N)%nat
    ∧ waitLoop fuel rt i sessionId url 0%nat w0 = Some (k, r, w')
    ∧ ∀ j, (j < k)%nat → clock rt j - startTime rt ≤ maxWait.
Proof.
  intros HN Hf.
  destruct (waitLoop_returns rt i sessionId url w0 N fuel)
    as (k & r & w' & Hk & Hl & _ & Hs); [| done |].
  { intros Hsus. apply iteration_Suspend_inv in Hsus as (_ & _ & _ & _ & Hc).
    lia. }
  exists k, r, w'. split; [done |]. split; [done |].
  intros j Hj. specialize (Hs j Hj).
  apply iteration_Suspend_inv in Hs as (_ & _ & _ & _ & Hc). done.
Qed.

Lemma loop_returns_by_the_first_pass_witness :
  ∃ k r w', (k ≤ 121)%nat
    ∧ waitLoop 122 (withUpload helloWorld) None "abc"
               (recordUrl (withUpload helloWorld)) 0%nat
               (created (withUpload helloWorld) emptyWorld)
      = Some (k, r, w')
    ∧ ∀ j, (j < k)%nat →
           clock (withUpload helloWorld) j - startTime (withUpload helloWorld)
           ≤ maxWait.
Proof.
  apply (loop_returns_by_the_first_pass_beyond_the_ceiling 122 121
           (withUpload helloWorld) None "abc"
           (recordUrl (withUpload helloWorld))
           (created (withUpload helloWorld) emptyWorld));
    [reflexivity | lia].
Defined.

Lemma id_update (r0 r : nat) (f : Session → Session) (w : World) :
  (∀ x, id (f x) = id x) → id (heap (update r0 f w) r) = id (heap w r).
Proof.
  intros Hf. destruct (decide (r0 = r)) as [-> | Hne].
  - by rewrite heap_update_eq.
  - by rewrite heap_update_ne.
Qed.

Lemma id_uploadCatch (r0 r : nat) (t : Thrown) (w : World) :
  id (heap (uploadCatch r0 t w).2 r) = id (heap w r).
Proof. unfold uploadCatch. cbn [snd]. by rewrite !id_update. Qed.

Lemma id_uploadFinish (r0 r : nat) (o : Outcome (option string)) (w : World) :
  id (heap (uploadFinish r0 o w).2 r) = id (heap w r).
Proof.
  destruct o; [| apply id_uploadCatch].
  unfold uploadFinish. cbn [snd]. by rewrite !id_update.
Qed.

Lemma keysAreIds_step (e : Event) (s s' : System) :
  step e s = Some s' → Invariant s →
  keysAreIds (world s) → keysAreIds (world s').
Proof.
  intros H I K. pose proof (inv_allocated s I) as I5.
  destruct e as [k ts tc | i k url start now | k | r0 read | r0 a key reply];
    cbn [step] in H.
  - injection H as <-. intros k' r. simpl. rewrite lookup_insert.
    case_decide as Hk.
    + intros [= <-]. by rewrite fn_lookup_insert.
    + intros [Hr _]%map_lookup_filter_Some.
      rewrite fn_lookup_insert_ne; [by apply K |].
      apply I5 in Hr. lia.
  - destruct (iteration _ _ _ _ _ _) as [r1 w1|] eqn:Hi; injection H as <-;
      [| done].
    apply iteration_heap in Hi as (_ & _ & [-> | ->]); [done |].
    intros k' r. simpl. intros [_ Hr]%lookup_delete_Some. by apply K.
  - unfold uploadBegin in H.
    destruct (sessions (world s) !! k) as [r0|]; injection H as <-; [| done].
    intros k' r Hr. cbn [world]. rewrite id_update by done. by apply K.
  - destruct (takeOut _ _) as [rest|]; [| discriminate H].
    cbn [mbind option_bind] in H. destruct read as [a | t]; injection H as <-;
      intros k' r Hr; cbn [world].
    + rewrite id_update by done. by apply K.
    + change (id (heap (uploadCatch r0 t (world s)).2 r) = k').
      rewrite id_uploadCatch. by apply K.
  - destruct (takeOut _ _) as [rest|]; [| discriminate H].
    cbn [mbind option_bind] in H. injection H as <-.
    intros k' r Hr.
    change (id (heap (uploadFinish r0 (transcribeAudio key a reply)
                        (world s)).2 r) = k').
    rewrite id_uploadFinish. apply K.
    by destruct (transcribeAudio key a reply).
Qed.

(** X20.  In every state the process reaches, the session stored under
    an identifier has that identifier as its [id], and no two
    identifiers share a session. *)
Theorem store_keys_are_session_ids (es : list Event) (s : System)
    (k : string) (x : Session) :
  run es initial = Some s →
  get k (world s) = Some x →
  id x = k
  ∧ ∀ k', k' ≠ k → sessions (world s) !! k' ≠ sessions (world s) !! k.
Proof.
  intros Hrun (r & Hr & ->)%get_Some. split.
  - assert (∀ es s0 s1, run es s0 = Some s1 → Invariant s0 →
              keysAreIds (world s0) → keysAreIds (world s1)) as Hk.
    { clear. intros es. induction es as [|e es IH]; intros s0 s1; simpl.
      - by intros [= <-].
      - destruct (step e s0) as [s2|] eqn:He; [| done]. simpl.
        intros H I K. apply (IH s2 s1 H).
        + by apply (Invariant_step e s0).
        + by apply (keysAreIds_step e s0). }
    apply (Hk es initial s Hrun); [apply Invariant_initial | | done].
    intros k0 r0. simpl. by rewrite lookup_empty.
  - intros k' Hne Heq. rewrite Hr in Heq.
    by apply Hne, (reachable_distinctObjects es s Hrun k' k r).
Qed.

Lemma store_keys_are_session_ids_witness :
  ∃ s x, run (firstUpload ++ secondUpload) initial = Some s
    ∧ get "abc" (world s) = Some x
    ∧ id x = "abc"
    ∧ ∀ k', k' ≠ "abc" → sessions (world s) !! k' ≠ sessions (world s) !! "abc".
Proof.
  eexists _, _. split; [reflexivity |]. split; [reflexivity |].
  eapply (store_keys_are_session_ids (firstUpload ++ secondUpload));
    reflexivity.
Defined.
